(** * Tenant-isolated event feed: the event and tenant services

    A shallow embedding of [src/services/tenantService.js] and
    [src/services/eventService.js] (both printed in
    [src/src/controllers/eventController.js]) together with the values of
    [config/config.js] they read, followed by the properties of the
    specification that concern the event log, the creation path, the
    validation pre-check, the sanitizer and the statistics.

    JavaScript strings are sequences of UTF-16 code units; they are modelled
    as [list N], so that [length] is the [.length] of the source.  The two
    sources of non-determinism of [createEvent] ([uuidv4()] and
    [new Date().toISOString()]) are taken as arguments. *)

From Stdlib Require Import ZArith NArith String Ascii List Lia.
From stdpp Require Import gmap strings list fin_maps.
Import ListNotations.

(** ** JavaScript strings and values *)

Abbreviation jsstring := (list N).

(** The code units of an ASCII literal of the source. *)
Definition js (s : string) : jsstring :=
  map N_of_ascii (list_ascii_of_string s).

#[local] Set Warnings "-register-all".

(** The values the services receive from their callers.  Numbers are the
    integer-valued ones; objects carry their own properties. *)
Inductive value : Type :=
| VUndefined
| VNull
| VBool (b : bool)
| VNum (z : Z)
| VStr (s : jsstring)
| VObj (props : list (jsstring * value)).

(** [ToBoolean], as used by [!x] and by [x ? a : b]. *)
Definition truthy (v : value) : bool :=
  match v with
  | VUndefined | VNull => false
  | VBool b => b
  | VNum z => negb (z =? 0)%Z
  | VStr s => match s with [] => false | _ :: _ => true end
  | VObj _ => true
  end.

(** [typeof v === 'string'] *)
Definition is_string (v : value) : bool :=
  match v with VStr _ => true | _ => false end.

Fixpoint assoc_get (k : jsstring) (props : list (jsstring * value)) : value :=
  match props with
  | [] => VUndefined
  | (k', v) :: rest => if bool_decide (k' = k) then v else assoc_get k rest
  end.

(** [v.message] for a value that is neither [null] nor [undefined]: an own
    property of an object, [undefined] on a primitive. *)
Definition get_message (v : value) : value :=
  match v with
  | VObj props => assoc_get (js "message") props
  | _ => VUndefined
  end.

(** ** String.prototype.trim and String.prototype.replace *)

(** The code units removed by [trim]: ECMAScript WhiteSpace and
    LineTerminator, all of which lie in the Basic Multilingual Plane. *)
Definition is_whitespace (c : N) : bool :=
  ((9 <=? c) && (c <=? 13) || (c =? 32) || (c =? 160) || (c =? 5760)
   || (8192 <=? c) && (c <=? 8202) || (c =? 8232) || (c =? 8233)
   || (c =? 8239) || (c =? 8287) || (c =? 12288) || (c =? 65279))%N.

Fixpoint trimStart (s : jsstring) : jsstring :=
  match s with
  | [] => []
  | c :: rest => if is_whitespace c then trimStart rest else s
  end.

Definition trimEnd (s : jsstring) : jsstring := rev (trimStart (rev s)).

Definition trim (s : jsstring) : jsstring := trimEnd (trimStart s).

(** [s.replace(/c/g, r)] for a pattern of one literal code unit and a
    replacement without [$]: every occurrence of [c] becomes [r]. *)
Definition replaceAll (c : N) (r : jsstring) (s : jsstring) : jsstring :=
  flat_map (fun x => if (x =? c)%N then r else [x]) s.

(** The code units the sanitizer looks for. *)
Definition AMP : N := 38.
Definition LT : N := 60.
Definition GT : N := 62.
Definition QUOT : N := 34.
Definition APOS : N := 39.
Definition SLASH : N := 47.

(** ** config/config.js

    The three environments agree on the two fields the services read. *)
Module config.
Definition maxEventMessageLength : Z := 500.
Definition supportedTenants : list jsstring := [js "tenant_a"; js "tenant_b"].
End config.

(** ** Errors and results

    Each constructor is one [throw] of the services; [TypeError] is the
    engine's own error for a method call on [undefined]. *)
Inductive error : Type :=
| InvalidTenant (tenantId : value)   (* `Invalid tenant: ${tenantId}` *)
| MessageRequired                    (* 'Message is required and must be a string' *)
| MessageTooLong                     (* `Message exceeds maximum length of ... characters` *)
| TypeError.

Inductive result (A : Type) : Type :=
| Ok (a : A)
| Throw (e : error).
Arguments Ok {A} a.
Arguments Throw {A} e.

Definition bind {A B} (r : result A) (k : A -> result B) : result B :=
  match r with
  | Ok a => k a
  | Throw e => Throw e
  end.

Notation "'let*' x ':=' r 'in' k" := (bind r (fun x => k))
  (at level 10, x name, r at level 100, k at level 200).

(** ** Events and the state of the two singletons *)

Record Event : Type := mkEvent {
  id : jsstring;
  tenant_id : value;
  message : jsstring;
  timestamp : jsstring
}.

(** [tenantEvents] is the [Map] of [TenantService]; [emitted] is the trace of
    the ['eventCreated'] announcements of [EventService], newest first. *)
Record state : Type := mkState {
  tenantEvents : gmap jsstring (list Event);
  emitted : list (value * Event)
}.

(** [Map.prototype.get]: only strings are ever keys of [tenantEvents]. *)
Definition map_get (m : gmap jsstring (list Event)) (k : value) : option (list Event) :=
  match k with
  | VStr s => m !! s
  | _ => None
  end.

(** ** TenantService *)

(** The constructor: an empty array for every supported tenant. *)
Definition init : state :=
  {| tenantEvents :=
       fold_left (fun m t => <[t := []]> m) config.supportedTenants ∅;
     emitted := [] |}.

Definition isValidTenant (tenantId : value) : bool :=
  if negb (truthy tenantId) || negb (is_string tenantId) then false
  else match tenantId with
       | VStr s => bool_decide (s ∈ config.supportedTenants)
       | _ => false
       end.

Definition MAX_EVENTS_PER_TENANT : nat := 1000.

(** [unshift] followed by [splice(MAX_EVENTS_PER_TENANT)] on the array held
    by the map: the array is mutated in place, which is an update of the
    map's entry. *)
Definition addEvent (tenantId : value) (event : Event) (st : state)
  : result (bool * state) :=
  if negb (isValidTenant tenantId) then Throw (InvalidTenant tenantId)
  else match tenantId, map_get (tenantEvents st) tenantId with
       | VStr t, Some events =>
           let events1 := event :: events in
           let events2 :=
             if (MAX_EVENTS_PER_TENANT <? length events1)%nat
             then take MAX_EVENTS_PER_TENANT events1
             else events1 in
           Ok (true, {| tenantEvents := <[t := events2]> (tenantEvents st);
                        emitted := emitted st |})
       | _, _ => Throw TypeError
       end.

(** The [limit] argument of the two list operations: left out by the
    caller, [null], or a number. *)
Inductive limit_arg : Type :=
| LimitOmitted
| LimitNull
| LimitNum (n : Z).

(** [events.slice(0, e)] for an integer [e]: a negative end counts from the
    end of the array, and the end is clamped to the length. *)
Definition slice0 {A} (events : list A) (e : Z) : list A :=
  let len := Z.of_nat (length events) in
  let final := if (e <? 0)%Z then Z.max (len + e) 0 else Z.min e len in
  take (Z.to_nat final) events.

(** [limit ? events.slice(0, limit) : [...events]] with [limit = null] as
    the default. *)
Definition getEvents (tenantId : value) (limit : limit_arg) (st : state)
  : result (list Event) :=
  let limit := match limit with LimitOmitted => LimitNull | l => l end in
  if negb (isValidTenant tenantId) then Throw (InvalidTenant tenantId)
  else match map_get (tenantEvents st) tenantId with
       | Some events =>
           match limit with
           | LimitNum n => if negb (n =? 0)%Z then Ok (slice0 events n) else Ok events
           | _ => Ok events
           end
       | None => Throw TypeError
       end.

Definition getEventCount (tenantId : value) (st : state) : result Z :=
  if negb (isValidTenant tenantId) then Ok 0%Z
  else match map_get (tenantEvents st) tenantId with
       | Some events => Ok (Z.of_nat (length events))
       | None => Throw TypeError
       end.

Definition getSupportedTenants : list jsstring := config.supportedTenants.

Definition clearTenantEvents (tenantId : value) (st : state) : result state :=
  if negb (isValidTenant tenantId) then Throw (InvalidTenant tenantId)
  else match tenantId with
       | VStr t => Ok {| tenantEvents := <[t := []]> (tenantEvents st);
                         emitted := emitted st |}
       | _ => Throw TypeError
       end.

(** ** EventService *)

(** [createEvent]; [new_id] and [now] are the results of [uuidv4()] and of
    [new Date().toISOString()] at this call.  Every [throw] precedes the
    first mutation, so a thrown call leaves the state as it was.  [emit] is
    the record of the announcement; the listeners it calls are outside the
    two services and are taken to return. *)
Definition createEvent (new_id now : jsstring) (tenantId msg : value) (st : state)
  : result (Event * state) :=
  if negb (isValidTenant tenantId) then Throw (InvalidTenant tenantId)
  else if negb (truthy msg) || negb (is_string msg) then Throw MessageRequired
  else match msg with
       | VStr s =>
           if (config.maxEventMessageLength <? Z.of_nat (length s))%Z
           then Throw MessageTooLong
           else
             let event := {| id := new_id; tenant_id := tenantId;
                             message := trim s; timestamp := now |} in
             let* r := addEvent tenantId event st in
             let st1 := snd r in
             Ok (event, {| tenantEvents := tenantEvents st1;
                           emitted := (tenantId, event) :: emitted st1 |})
       | _ => Throw MessageRequired
       end.

(** [getEventsByTenant(tenantId, limit = 50)] *)
Definition getEventsByTenant (tenantId : value) (limit : limit_arg) (st : state)
  : result (list Event) :=
  let limit := match limit with LimitOmitted => LimitNum 50 | l => l end in
  getEvents tenantId limit st.

Record validation : Type := mkValidation {
  isValid : bool;
  errors : list string
}.

Definition validateEventData (eventData : value) : validation :=
  if negb (truthy eventData)
  then {| isValid := false; errors := ["Event data is required"%string] |}
  else
    let m := get_message eventData in
    let errors :=
      if negb (truthy m) || negb (is_string m)
      then ["Message is required and must be a string"%string]
      else match m with
           | VStr s =>
               if (config.maxEventMessageLength <? Z.of_nat (length s))%Z
               then ["Message exceeds maximum length of 500 characters"%string]
               else if (length (trim s) =? 0)%nat
                    then ["Message cannot be empty"%string]
                    else []
           | _ => []
           end in
    {| isValid := (length errors =? 0)%nat; errors := errors |}.

(** [sanitizeMessage]: six global replacements in the order of the source,
    then [trim]. *)
Definition sanitizeMessage (msg : value) : jsstring :=
  match msg with
  | VStr s =>
      trim
        (replaceAll SLASH (js "&#x2F;")
          (replaceAll APOS (js "&#x27;")
            (replaceAll QUOT (js "&quot;")
              (replaceAll GT (js "&gt;")
                (replaceAll LT (js "&lt;")
                  (replaceAll AMP (js "&amp;") s))))))
  | _ => []
  end.

Record stats : Type := mkStats {
  totalEvents : Z;
  tenantStats : gmap jsstring Z
}.

(** The body of the [for ... of] loop of [getEventStats]. *)
Definition stats_step (st : state) (acc : result stats) (tenantId : jsstring)
  : result stats :=
  let* s := acc in
  let* count := getEventCount (VStr tenantId) st in
  Ok {| totalEvents := (totalEvents s + count)%Z;
        tenantStats := <[tenantId := count]> (tenantStats s) |}.

Definition getEventStats (st : state) : result stats :=
  fold_left (stats_step st) getSupportedTenants
            (Ok {| totalEvents := 0%Z; tenantStats := ∅ |}).

(** ** The request handler of POST /api/events

    The two service calls of the controller's [createEvent], in its order:
    the message of the request body is sanitized, and the sanitized text is
    what [EventService.createEvent] receives.  The handler runs them once
    the validation chain of the route has let the request through; the
    chain only narrows the bodies that arrive here. *)
Module eventController.
Definition createEvent (new_id now : jsstring) (tenantId body_message : value)
  (st : state) : result (Event * state) :=
  let sanitizedMessage := sanitizeMessage body_message in
  createEvent new_id now tenantId (VStr sanitizedMessage) st.
End eventController.

(** ** What the sanitizer is meant to produce *)

(** One code unit through the six replacements. *)
Definition escape_char (c : N) : jsstring :=
  if (c =? AMP)%N then js "&amp;"
  else if (c =? LT)%N then js "&lt;"
  else if (c =? GT)%N then js "&gt;"
  else if (c =? QUOT)%N then js "&quot;"
  else if (c =? APOS)%N then js "&#x27;"
  else if (c =? SLASH)%N then js "&#x2F;"
  else [c].

Definition entities : list jsstring :=
  [js "&amp;"; js "&lt;"; js "&gt;"; js "&quot;"; js "&#x27;"; js "&#x2F;"].

(** A literal [<], [>], double quote, single quote or [/]. *)
Definition literal_markup (c : N) : bool :=
  ((c =? LT) || (c =? GT) || (c =? QUOT) || (c =? APOS) || (c =? SLASH))%N.

(** No literal markup character, and every [&] starts one of the six
    entities. *)
Definition escaped (s : jsstring) : Prop :=
  (∀ c, c ∈ s → literal_markup c = false) ∧
  (∀ i, s !! i = Some AMP → ∃ e, e ∈ entities ∧ e `prefix_of` drop i s).

(** Neither the first nor the last code unit is white space. *)
Definition trimmed (s : jsstring) : Prop :=
  (∀ c, head s = Some c → is_whitespace c = false) ∧
  (∀ c, last s = Some c → is_whitespace c = false).

(** What every entity looks like: an ampersand, then code units that are
    neither ampersands, nor markup, nor white space. *)
Definition entity_shape (e : jsstring) : bool :=
  match e with
  | [] => false
  | c :: t =>
      (c =? AMP)%N &&
      forallb (λ d, negb (d =? AMP)%N && negb (literal_markup d)
                    && negb (is_whitespace d)) t
  end.

(** The two shapes of [escape_char c]. *)
Inductive escape_view (c : N) : jsstring → Prop :=
| view_entity e : e ∈ entities → escape_view c e
| view_plain : c ≠ AMP → literal_markup c = false → escape_view c [c].

(** The sum of the counts a [tenantStats] object holds. *)
Definition sum_counts (m : gmap jsstring Z) : Z :=
  map_fold (λ _ n acc, n + acc)%Z 0%Z m.

(** The number of stored events of a tenant, and its sum over a list of
    tenants. *)
Definition stored (st : state) (t : jsstring) : Z :=
  match tenantEvents st !! t with
  | Some events => Z.of_nat (length events)
  | None => 0%Z
  end.

Definition stored_total (st : state) (l : list jsstring) : Z :=
  foldr (λ t acc, stored st t + acc)%Z 0%Z l.

(** ** Sequences of calls *)

(** The calls that can change the state of the two singletons.  The reading
    calls ([getEvents], [getEventsByTenant], [getEventCount],
    [getEventStats], [validateEventData], [sanitizeMessage]) return fresh
    values and leave the state alone. *)
Inductive op : Type :=
| OpAddEvent (tenantId : value) (event : Event)
| OpCreateEvent (new_id now : jsstring) (tenantId msg : value)
| OpClearTenantEvents (tenantId : value).

(** The state after a call; a call that throws has changed nothing. *)
Definition step (st : state) (o : op) : state :=
  match o with
  | OpAddEvent t e =>
      match addEvent t e st with Ok (_, st') => st' | Throw _ => st end
  | OpCreateEvent i now t m =>
      match createEvent i now t m st with Ok (_, st') => st' | Throw _ => st end
  | OpClearTenantEvents t =>
      match clearTenantEvents t st with Ok st' => st' | Throw _ => st end
  end.

Definition run (ops : list op) (st : state) : state := fold_left step ops st.

(** One request of a batch of creations: the fresh id, the time stamp and
    the message. *)
Record request : Type := mkRequest {
  req_id : jsstring;
  req_now : jsstring;
  req_message : value
}.

(** [createEvent] called once per request, in order, for one tenant; the
    events are returned in the order of their creation.  The result is [Ok]
    exactly when every call returned. *)
Fixpoint createEvents (tenantId : value) (reqs : list request) (st : state)
  : result (list Event * state) :=
  match reqs with
  | [] => Ok ([], st)
  | r :: rest =>
      let* c := createEvent (req_id r) (req_now r) tenantId (req_message r) st in
      let* cs := createEvents tenantId rest (snd c) in
      Ok (fst c :: fst cs, snd cs)
  end.

(** Every supported tenant has its array. *)
Definition wf (st : state) : Prop :=
  ∀ t, t ∈ config.supportedTenants → is_Some (tenantEvents st !! t).

(** No array is longer than the cap. *)
Definition capped (st : state) : Prop :=
  ∀ t events, tenantEvents st !! t = Some events →
              (length events ≤ MAX_EVENTS_PER_TENANT)%nat.

(** What one request becomes. *)
Definition created (tn : jsstring) (r : request) (e : Event) : Prop :=
  ∃ s, req_message r = VStr s ∧ s ≠ [] ∧ (length s ≤ 500)%nat ∧
       e = {| id := req_id r; tenant_id := VStr tn;
              message := trim s; timestamp := req_now r |}.

(** ** Inputs of the scenarios *)

Definition tenant_a : jsstring := js "tenant_a".
Definition tenant_b : jsstring := js "tenant_b".

Definition spaces (n : nat) : jsstring := replicate n 32%N.

Definition with_message (s : jsstring) : value := VObj [(js "message", VStr s)].

(** The four messages of [validateEventData]. *)
Definition E_DATA : string := "Event data is required".
Definition E_REQUIRED : string := "Message is required and must be a string".
Definition E_TOO_LONG : string := "Message exceeds maximum length of 500 characters".
Definition E_EMPTY : string := "Message cannot be empty".

(** 1001 requests whose ids are the code units 0, 1, ..., 1000. *)
Definition numbered_request (n : nat) : request :=
  {| req_id := [N.of_nat n]; req_now := js "2025-01-20T10:30:00.000Z";
     req_message := VStr (js "event") |}.

Definition requests_1001 : list request := map numbered_request (seq 0 1001).

(** The event a request becomes, and the call that creates it. *)
Definition event_of (tn : jsstring) (r : request) : Event :=
  {| id := req_id r; tenant_id := VStr tn;
     message := match req_message r with VStr s => trim s | _ => [] end;
     timestamp := req_now r |}.

Definition create_op (tn : jsstring) (r : request) : op :=
  OpCreateEvent (req_id r) (req_now r) (VStr tn) (req_message r).

(** The state after one creation for tenant_a. *)
Definition one_event : state := step init (create_op tenant_a (numbered_request 0)).

(** Two events for tenant_a and one for tenant_b. *)
Definition three_events : state :=
  run [create_op tenant_a (numbered_request 0);
       create_op tenant_a (numbered_request 1);
       create_op tenant_b (numbered_request 2)] init.

(** ** SocketService: the registry of connected clients

    [connectedClients] is the [Map] from a tenant to the [Set] of the ids of
    its sockets.  A socket reaches [handleConnection] with the [tenantId]
    that [validateSocketTenant] has put on it, a string.  The calls into
    socket.io ([socket.join], [socket.on], [io.to(...).emit]) belong to the
    library; of a connection the model keeps the two messages the service
    itself sends to the new socket. *)

Record socket : Type := mkSocket {
  socket_id : jsstring;
  socket_tenantId : jsstring
}.

(** What [handleConnection] emits on the new socket:
    ['connection_established'] with the tenant and the time, and
    ['initial_events'] with the recent events and their number. *)
Inductive socket_message : Type :=
| ConnectionEstablished (tenantId timestamp : jsstring)
| InitialEvents (events : list Event) (count : Z).

(** The tracking part of [handleConnection]: a new [Set] when the tenant has
    none, then [add]. *)
Definition trackConnection (s : socket) (clients : gmap jsstring (gset jsstring))
  : gmap jsstring (gset jsstring) :=
  let tenantId := socket_tenantId s in
  let clients1 :=
    match clients !! tenantId with
    | Some _ => clients
    | None => <[tenantId := ∅]> clients
    end in
  match clients1 !! tenantId with
  | Some ids => <[tenantId := ids ∪ {[socket_id s]}]> clients1
  | None => clients1
  end.

(** The recent events sent to a new socket: [getEvents(tenantId, 10)] inside
    a [try], sent when there is at least one; the [catch] only logs. *)
Definition initialEvents (tenantId : jsstring) (st : state) : list socket_message :=
  match getEvents (VStr tenantId) (LimitNum 10) st with
  | Ok recentEvents =>
      if (0 <? length recentEvents)%nat
      then [InitialEvents recentEvents (Z.of_nat (length recentEvents))]
      else []
  | Throw _ => []
  end.

(** [handleConnection]: the registry after the call and the messages sent to
    the socket, in order; [now] is the time of the confirmation. *)
Definition handleConnection (now : jsstring) (s : socket)
  (clients : gmap jsstring (gset jsstring)) (st : state)
  : gmap jsstring (gset jsstring) * list socket_message :=
  (trackConnection s clients,
   ConnectionEstablished (socket_tenantId s) now :: initialEvents (socket_tenantId s) st).

Definition handleDisconnection (s : socket) (clients : gmap jsstring (gset jsstring))
  : gmap jsstring (gset jsstring) :=
  let tenantId := socket_tenantId s in
  match clients !! tenantId with
  | Some ids =>
      let ids1 := ids ∖ {[socket_id s]} in
      let clients1 := <[tenantId := ids1]> clients in
      if (size ids1 =? 0)%nat then delete tenantId clients1 else clients1
  | None => clients
  end.

Definition getConnectedClientCount (tenantId : jsstring)
  (clients : gmap jsstring (gset jsstring)) : Z :=
  match clients !! tenantId with
  | Some ids => Z.of_nat (size ids)
  | None => 0%Z
  end.



(** The calls that change the registry. *)
Inductive socket_op : Type :=
| Connect (s : socket)
| Disconnect (s : socket).

Definition socket_step (clients : gmap jsstring (gset jsstring)) (o : socket_op)
  : gmap jsstring (gset jsstring) :=
  match o with
  | Connect s => trackConnection s clients
  | Disconnect s => handleDisconnection s clients
  end.

Definition socket_run (ops : list socket_op) (clients : gmap jsstring (gset jsstring))
  : gmap jsstring (gset jsstring) :=
  fold_left socket_step ops clients.

(** No tenant is kept with an empty set. *)
Definition no_empty_group (clients : gmap jsstring (gset jsstring)) : Prop :=
  ∀ t ids, clients !! t = Some ids → ids ≠ ∅.

(** ** Tenant middleware *)

Inductive tenant_check : Type :=
| MissingTenant        (* 400, 'MISSING_TENANT_HEADER' or the [Error] of the socket *)
| InvalidTenantId      (* 400, 'INVALID_TENANT_ID' or the [Error] of the socket *)
| TenantAccepted (tenantId : value).   (* [req.tenantId = tenantId; next()] *)

(** [validateTenant], [validateTenantQuery] and [validateSocketTenant] make
    the same two tests on the value they read (the header, or the [tenant]
    of the query), and differ in how they report. *)
Definition validateTenant (tenantId : value) : tenant_check :=
  if negb (truthy tenantId) then MissingTenant
  else if negb (isValidTenant tenantId) then InvalidTenantId
  else TenantAccepted tenantId.

(** ** Number.parseInt with radix 10

    Leading white space is skipped, one sign is read, and the longest prefix
    of decimal digits is the number; without a digit the result is [NaN],
    here [None].  The integer is exact; the engine rounds it to a double,
    which no comparison with 1 or 100 can tell apart. *)
Definition is_digit (c : N) : bool := ((48 <=? c) && (c <=? 57))%N.

Fixpoint digits_value (acc : Z) (s : jsstring) : Z :=
  match s with
  | c :: rest =>
      if is_digit c then digits_value (10 * acc + (Z.of_N c - 48))%Z rest else acc
  | [] => acc
  end.

Definition parseInt (s : jsstring) : option Z :=
  let s1 := trimStart s in
  let '(sign, s2) :=
    match s1 with
    | c :: rest =>
        if (c =? 45)%N then ((-1)%Z, rest)
        else if (c =? 43)%N then (1%Z, rest)
        else (1%Z, s1)
    | [] => (1%Z, s1)
    end in
  match s2 with
  | c :: _ => if is_digit c then Some (sign * digits_value 0 s2)%Z else None
  | [] => None
  end.

(** ** The request handler of GET /api/events *)

(** What a handler passes to [next]: the [AppError] of the limit, or what a
    service threw. *)
Inductive handler_error : Type :=
| AppError (message : string) (statusCode : Z) (code : string)
| ServiceError (e : error).

(** The body of the 200 response: the events, their number and the tenant. *)
Record events_response : Type := mkEventsResponse {
  resp_events : list Event;
  resp_count : Z;
  resp_tenant : value
}.

Module eventsQuery.
(** The controller's [getEvents]; [limitParam] is [req.query.limit], absent
    or a string.  [respond] is the part after the test of the limit: the
    call of the service and the 200 response, or [next(error)]. *)
Definition respond (tenantId : value) (limit : Z) (st : state)
  : handler_error + events_response :=
  match getEventsByTenant tenantId (LimitNum limit) st with
  | Ok events =>
      inr {| resp_events := events;
             resp_count := Z.of_nat (length events);
             resp_tenant := tenantId |}
  | Throw e => inl (ServiceError e)
  end.

Definition getEvents (tenantId : value) (limitParam : option jsstring) (st : state)
  : handler_error + events_response :=
  match limitParam with
  | Some s =>
      if truthy (VStr s)
      then match parseInt s with
           | Some limit =>
               if (limit <? 1)%Z || (100 <? limit)%Z
               then inl (AppError "Limit must be between 1 and 100" 400 "INVALID_LIMIT")
               else respond tenantId limit st
           | None => inl (AppError "Limit must be between 1 and 100" 400 "INVALID_LIMIT")
           end
      else respond tenantId 50 st
  | None => respond tenantId 50 st
  end.
End eventsQuery.

(** ** The error handler *)

(** [String.prototype.includes]. *)
Fixpoint starts_with (p s : list ascii) : bool :=
  match p, s with
  | [], _ => true
  | a :: p', b :: s' => bool_decide (a = b) && starts_with p' s'
  | _ :: _, [] => false
  end.

Fixpoint includes_from (p s : list ascii) : bool :=
  starts_with p s ||
  match s with
  | [] => false
  | _ :: s' => includes_from p s'
  end.

Definition includes (s p : string) : bool :=
  includes_from (list_ascii_of_string p) (list_ascii_of_string s).

(** What the handler reads of an [Error]: its name, its message and its
    [statusCode], which only an [AppError] has. *)
Record js_error : Type := mkJsError {
  err_name : string;
  err_message : string;
  err_statusCode : option Z
}.

(** The three fields of the response the branches decide. *)
Record error_response : Type := mkErrorResponse {
  res_status : Z;
  res_error : string;
  res_code : string
}.

Definition errorHandler (err : js_error) : error_response :=
  if bool_decide (err_name err = "ValidationError"%string)
  then {| res_status := 400; res_error := "Validation Error"; res_code := "VALIDATION_ERROR" |}
  else if includes (err_message err) "Invalid tenant"
  then {| res_status := 400; res_error := "Invalid tenant ID"; res_code := "INVALID_TENANT" |}
  else if includes (err_message err) "Message exceeds maximum length"
  then {| res_status := 400; res_error := "Message too long"; res_code := "MESSAGE_TOO_LONG" |}
  else if includes (err_message err) "Message is required"
  then {| res_status := 400; res_error := "Message is required"; res_code := "MISSING_MESSAGE" |}
  else match err_statusCode err with
       | Some status =>
           if negb (status =? 0)%Z
           then {| res_status := status; res_error := err_message err;
                   res_code := "INTERNAL_ERROR" |}
           else {| res_status := 500; res_error := "Internal Server Error";
                   res_code := "INTERNAL_ERROR" |}
       | None => {| res_status := 500; res_error := "Internal Server Error";
                    res_code := "INTERNAL_ERROR" |}
       end.

(** The [Error] objects the two services and the controller build.  The text
    a tenant id takes inside the template of the first message is
    [shown]. *)
Definition thrown (shown : string) (e : handler_error) : option js_error :=
  match e with
  | AppError message statusCode _ =>
      Some {| err_name := "Error"; err_message := message;
              err_statusCode := Some statusCode |}
  | ServiceError (InvalidTenant _) =>
      Some {| err_name := "Error";
              err_message := String.append "Invalid tenant: " shown;
              err_statusCode := None |}
  | ServiceError MessageRequired =>
      Some {| err_name := "Error";
              err_message := "Message is required and must be a string";
              err_statusCode := None |}
  | ServiceError MessageTooLong =>
      Some {| err_name := "Error";
              err_message := "Message exceeds maximum length of 500 characters";
              err_statusCode := None |}
  | ServiceError TypeError => None
  end.

(** ** Notions used by the further properties *)

(** The tenant a call writes to. *)
Definition op_tenant (o : op) : value :=
  match o with
  | OpAddEvent t _ => t
  | OpCreateEvent _ _ t _ => t
  | OpClearTenantEvents t => t
  end.

(** The calls that go through [EventService]: every call but a direct
    [addEvent]. *)
Definition through_event_service (o : op) : bool :=
  match o with
  | OpAddEvent _ _ => false
  | _ => true
  end.

(** An event as [createEvent] builds it for tenant [tn]. *)
Definition well_formed_event (tn : jsstring) (e : Event) : Prop :=
  tenant_id e = VStr tn ∧ (length (message e) ≤ 500)%nat ∧
  trim (message e) = message e.

(** One of the six code units the sanitizer replaces. *)
Definition needs_escape (c : N) : bool := (c =? AMP)%N || literal_markup c.

(** The invariant of the calls that go through [EventService]. *)
Definition events_consistent (st : state) : Prop :=
  (∀ tn events e, tenantEvents st !! tn = Some events → e ∈ events →
                  well_formed_event tn e) ∧
  (∀ t e, (t, e) ∈ emitted st → isValidTenant t = true ∧ tenant_id e = t).

(** A state whose log for tenant_a holds 1000 copies of one event. *)
Definition full_log : state :=
  {| tenantEvents :=
       <[tenant_a := replicate 1000 (event_of tenant_a (numbered_request 0))]> ∅;
     emitted := [] |}.

(** * Properties *)

(** ** Trimming *)

Section Trim.

Lemma trimStart_idemp s : trimStart (trimStart s) = trimStart s.
Proof.
  induction s as [|c s IH]; simpl; [done|].
  destruct (is_whitespace c) eqn:Hc; [done|]. simpl. by rewrite Hc.
Qed.

Lemma trimStart_head s c : head (trimStart s) = Some c → is_whitespace c = false.
Proof.
  induction s as [|d s IH]; simpl; [done|].
  destruct (is_whitespace d) eqn:Hd; [done|]. simpl. congruence.
Qed.

Lemma trimStart_snoc s c :
  is_whitespace c = false → trimStart (s ++ [c]) = trimStart s ++ [c].
Proof.
  intros Hc. induction s as [|d s IH]; simpl.
  - by rewrite Hc.
  - by destruct (is_whitespace d).
Qed.

Lemma trimEnd_cons c s :
  is_whitespace c = false → trimEnd (c :: s) = c :: trimEnd s.
Proof.
  intros Hc. unfold trimEnd. simpl.
  by rewrite trimStart_snoc, rev_app_distr.
Qed.

Lemma trimEnd_idemp s : trimEnd (trimEnd s) = trimEnd s.
Proof. unfold trimEnd. by rewrite rev_involutive, trimStart_idemp. Qed.

Lemma trimStart_fixed s :
  (∀ c, head s = Some c → is_whitespace c = false) → trimStart s = s.
Proof.
  destruct s as [|c s]; simpl; [done|]. intros H. by rewrite (H c).
Qed.

Lemma trim_head s c : head (trim s) = Some c → is_whitespace c = false.
Proof.
  unfold trim. pose proof (trimStart_head s) as Hh.
  destruct (trimStart s) as [|d u]; [done|].
  rewrite trimEnd_cons by (by apply Hh). simpl. intros [= <-]. by apply Hh.
Qed.

Lemma last_rev_head {A} (u : list A) : last (rev u) = head u.
Proof. destruct u as [|c u]; simpl; [done | apply last_snoc]. Qed.

Lemma trim_last s c : last (trim s) = Some c → is_whitespace c = false.
Proof.
  unfold trim, trimEnd. rewrite last_rev_head. apply trimStart_head.
Qed.

Lemma trim_trimmed s : trimmed (trim s).
Proof. split; [apply trim_head | apply trim_last]. Qed.

Lemma trim_idemp s : trim (trim s) = trim s.
Proof.
  unfold trim at 1. rewrite (trimStart_fixed (trim s)) by apply trim_head.
  unfold trim. apply trimEnd_idemp.
Qed.

Lemma trim_length s : (length (trim s) ≤ length s)%nat.
Proof.
  assert (Hs : ∀ u, (length (trimStart u) ≤ length u)%nat).
  { induction u as [|c u IH]; simpl; [lia|].
    destruct (is_whitespace c); simpl; lia. }
  unfold trim, trimEnd. rewrite length_rev.
  etrans; [apply Hs|]. rewrite length_rev. apply Hs.
Qed.

Lemma trim_nil_iff s : trim s = [] ↔ Forall (λ c, is_whitespace c = true) s.
Proof.
  assert (Hs : ∀ u, trimStart u = [] ↔ Forall (λ c, is_whitespace c = true) u).
  { induction u as [|c u IH]; simpl; [by split|].
    destruct (is_whitespace c) eqn:Hc.
    - rewrite IH. split; [by constructor | by inversion 1].
    - split; [done|]. inversion 1; congruence. }
  unfold trim. split.
  - intros H. unfold trimEnd in H.
    apply (f_equal (@rev N)) in H. rewrite rev_involutive in H. simpl in H.
    apply Hs in H. apply Forall_rev in H. rewrite rev_involutive in H.
    pose proof (trimStart_head s) as Hh.
    destruct (trimStart s) as [|d u] eqn:Hu; [by apply Hs|].
    inversion H; subst. specialize (Hh d eq_refl). congruence.
  - intros H. apply Hs in H. by rewrite H.
Qed.

End Trim.

(** ** The six replacements as one pass *)

Section Escape.

Lemma replaceAll_flat_map c r (f : N → jsstring) s :
  replaceAll c r (flat_map f s) = flat_map (λ x, replaceAll c r (f x)) s.
Proof.
  unfold replaceAll. induction s as [|x s IH]; simpl; [done|].
  by rewrite flat_map_app, IH.
Qed.

(** The replacements inserted by earlier passes contain nothing a later
    pass looks for, so the passes compose to [escape_char]. *)
Lemma six_passes_char x :
  replaceAll SLASH (js "&#x2F;")
    (replaceAll APOS (js "&#x27;")
      (replaceAll QUOT (js "&quot;")
        (replaceAll GT (js "&gt;")
          (replaceAll LT (js "&lt;")
            (if (x =? AMP)%N then js "&amp;" else [x])))))
  = escape_char x.
Proof.
  unfold escape_char, replaceAll.
  destruct (N.eqb_spec x AMP) as [->|]; [by vm_compute|].
  cbn [flat_map app]. destruct (N.eqb_spec x LT) as [->|]; [by vm_compute|].
  cbn [flat_map app]. destruct (N.eqb_spec x GT) as [->|]; [by vm_compute|].
  cbn [flat_map app]. destruct (N.eqb_spec x QUOT) as [->|]; [by vm_compute|].
  cbn [flat_map app]. destruct (N.eqb_spec x APOS) as [->|]; [by vm_compute|].
  cbn [flat_map app]. by destruct (N.eqb_spec x SLASH) as [->|].
Qed.

Lemma six_passes s :
  replaceAll SLASH (js "&#x2F;")
    (replaceAll APOS (js "&#x27;")
      (replaceAll QUOT (js "&quot;")
        (replaceAll GT (js "&gt;")
          (replaceAll LT (js "&lt;")
            (replaceAll AMP (js "&amp;") s)))))
  = flat_map escape_char s.
Proof.
  unfold replaceAll at 6. rewrite !replaceAll_flat_map.
  apply flat_map_ext, six_passes_char.
Qed.

Lemma entities_shape e : e ∈ entities → entity_shape e = true.
Proof.
  unfold entities. rewrite !elem_of_cons, elem_of_nil.
  intros [->|[->|[->|[->|[->|[->|[]]]]]]]; by vm_compute.
Qed.

Lemma escape_char_view c : escape_view c (escape_char c).
Proof.
  unfold escape_char.
  destruct (N.eqb_spec c AMP); [apply view_entity; set_solver|].
  destruct (N.eqb_spec c LT); [apply view_entity; set_solver|].
  destruct (N.eqb_spec c GT); [apply view_entity; set_solver|].
  destruct (N.eqb_spec c QUOT); [apply view_entity; set_solver|].
  destruct (N.eqb_spec c APOS); [apply view_entity; set_solver|].
  destruct (N.eqb_spec c SLASH); [apply view_entity; set_solver|].
  apply view_plain; [done|]. unfold literal_markup.
  repeat (apply orb_false_intro); by apply N.eqb_neq.
Qed.

Lemma escape_char_whitespace c :
  is_whitespace c = true → escape_char c = [c].
Proof.
  intros Hc. unfold escape_char.
  destruct (N.eqb_spec c AMP) as [->|]; [done|].
  destruct (N.eqb_spec c LT) as [->|]; [done|].
  destruct (N.eqb_spec c GT) as [->|]; [done|].
  destruct (N.eqb_spec c QUOT) as [->|]; [done|].
  destruct (N.eqb_spec c APOS) as [->|]; [done|].
  by destruct (N.eqb_spec c SLASH) as [->|].
Qed.

Lemma entity_shape_inv e :
  entity_shape e = true →
  ∃ t, e = AMP :: t ∧
       Forall (λ d, d ≠ AMP ∧ literal_markup d = false ∧ is_whitespace d = false) t.
Proof.
  destruct e as [|c t]; simpl; [done|].
  intros [Hc Ht]%andb_prop. apply N.eqb_eq in Hc as ->.
  exists t. split; [done|]. apply Forall_forall. intros d Hd.
  rewrite forallb_forall in Ht. apply list_elem_of_In in Hd.
  specialize (Ht d Hd). apply andb_prop in Ht as [[H1 H2]%andb_prop H3].
  apply negb_true_iff in H1, H2, H3. by apply N.eqb_neq in H1.
Qed.

Lemma escape_char_nonwhite c :
  is_whitespace c = false →
  escape_char c ≠ [] ∧ Forall (λ d, is_whitespace d = false) (escape_char c).
Proof.
  intros Hc. destruct (escape_char_view c) as [e He|].
  - apply entities_shape, entity_shape_inv in He as (t & -> & Ht).
    split; [done|]. constructor; [done|].
    eapply Forall_impl; [exact Ht|]. by intros d (_ & _ & Hd).
  - split; [done|]. by repeat constructor.
Qed.

Lemma escape_char_no_markup c d :
  d ∈ escape_char c → literal_markup d = false.
Proof.
  destruct (escape_char_view c) as [e He|].
  - apply entities_shape, entity_shape_inv in He as (t & -> & Ht).
    rewrite elem_of_cons. intros [->|Hd]; [done|].
    rewrite Forall_forall in Ht. by apply Ht.
  - rewrite elem_of_cons, elem_of_nil. by intros [->|[]].
Qed.

End Escape.

(** ** Trimming an escaped text *)

Section TrimFlatMap.

Variable f : N → jsstring.
Hypothesis f_white : ∀ c, is_whitespace c = true → f c = [c].
Hypothesis f_nonwhite :
  ∀ c, is_whitespace c = false →
       f c ≠ [] ∧ Forall (λ d, is_whitespace d = false) (f c).

Lemma trimStart_flat_map s :
  trimStart (flat_map f s) = flat_map f (trimStart s).
Proof.
  induction s as [|c s IH]; simpl; [done|].
  destruct (is_whitespace c) eqn:Hc.
  - rewrite (f_white c Hc). simpl. by rewrite Hc.
  - destruct (f_nonwhite c Hc) as [Hne Hall].
    destruct (f c) as [|d u] eqn:Hf; [done|].
    inversion Hall as [|? ? Hd _]; subst. simpl. rewrite Hd.
    simpl. by rewrite Hf.
Qed.

End TrimFlatMap.

Section SanitizeShape.

Lemma rev_flat_map (f : N → jsstring) s :
  rev (flat_map f s) = flat_map (λ x, rev (f x)) (rev s).
Proof.
  induction s as [|c s IH]; simpl; [done|].
  rewrite rev_app_distr, IH, flat_map_app. simpl. by rewrite app_nil_r.
Qed.

Lemma trimEnd_escape s :
  trimEnd (flat_map escape_char s) = flat_map escape_char (trimEnd s).
Proof.
  unfold trimEnd. rewrite rev_flat_map, trimStart_flat_map.
  - rewrite rev_flat_map. apply flat_map_ext. intros c. apply rev_involutive.
  - intros c Hc. by rewrite escape_char_whitespace.
  - intros c Hc. destruct (escape_char_nonwhite c Hc) as [Hne Hall]. split.
    + intros H. apply Hne. apply (f_equal (@rev N)) in H.
      by rewrite rev_involutive in H.
    + apply Forall_forall. intros d Hd. rewrite Forall_forall in Hall.
      apply Hall. apply list_elem_of_In. apply list_elem_of_In in Hd.
      by apply in_rev.
Qed.

Lemma trim_escape s :
  trim (flat_map escape_char s) = flat_map escape_char (trim s).
Proof.
  unfold trim. rewrite trimStart_flat_map.
  - apply trimEnd_escape.
  - apply escape_char_whitespace.
  - apply escape_char_nonwhite.
Qed.

(** The sanitizer is one left-to-right pass over the trimmed input. *)
Lemma sanitizeMessage_single_pass s :
  sanitizeMessage (VStr s) = flat_map escape_char (trim s).
Proof. unfold sanitizeMessage. by rewrite six_passes, trim_escape. Qed.

Lemma flat_map_escape_no_markup s c :
  c ∈ flat_map escape_char s → literal_markup c = false.
Proof.
  rewrite list_elem_of_In, in_flat_map. intros (x & _ & Hc).
  apply (escape_char_no_markup x). by apply list_elem_of_In.
Qed.

Lemma flat_map_escape_amp s i :
  flat_map escape_char s !! i = Some AMP →
  ∃ e, e ∈ entities ∧ e `prefix_of` drop i (flat_map escape_char s).
Proof.
  revert i. induction s as [|c s IH]; intros i; simpl; [done|].
  destruct (decide (i < length (escape_char c))%nat) as [Hlt|Hge].
  - rewrite lookup_app_l by done. intros Hi.
    assert (i = 0%nat ∧ escape_char c ∈ entities) as [-> He].
    { destruct (escape_char_view c) as [e He|Hc _].
      - split; [|done].
        apply entities_shape, entity_shape_inv in He as (t & -> & Ht).
        destruct i as [|i]; [done|]. simpl in Hi.
        rewrite Forall_forall in Ht.
        destruct (Ht AMP) as [? _]; [|done]. eapply list_elem_of_lookup_2, Hi.
      - simpl in Hlt. assert (i = 0%nat) as -> by lia.
        simpl in Hi. congruence. }
    exists (escape_char c). split; [done|]. simpl. by apply prefix_app_r.
  - rewrite lookup_app_r by lia. intros Hi.
    destruct (IH _ Hi) as (e & He & Hp). exists e. split; [done|].
    replace i with (length (escape_char c) + (i - length (escape_char c)))%nat
      at 1 by lia.
    by rewrite drop_app_add.
Qed.

Lemma flat_map_escape_escaped s : escaped (flat_map escape_char s).
Proof.
  split; [apply flat_map_escape_no_markup | apply flat_map_escape_amp].
Qed.

End SanitizeShape.

(** ** The tenant catalog and the store *)

Section Store.

Lemma isValidTenant_iff t :
  isValidTenant t = true ↔ ∃ tn, t = VStr tn ∧ tn ∈ config.supportedTenants.
Proof.
  unfold isValidTenant. split.
  - destruct t as [| |b|z|s|props]; simpl; try done.
    + by destruct b.
    + by destruct (z =? 0)%Z.
    + destruct s; simpl; [done|]. intros H%bool_decide_eq_true. eauto.
  - intros (tn & -> & Hin). simpl.
    destruct tn as [|c tn]; simpl.
    + exfalso. revert Hin. unfold config.supportedTenants.
      rewrite !elem_of_cons, elem_of_nil. by intros [|[|[]]].
    + by apply bool_decide_eq_true.
Qed.

Lemma wf_lookup st t :
  wf st → isValidTenant t = true →
  ∃ tn events, t = VStr tn ∧ tn ∈ config.supportedTenants ∧
               tenantEvents st !! tn = Some events.
Proof.
  intros Hwf (tn & -> & Hin)%isValidTenant_iff.
  destruct (Hwf tn Hin) as [events He]. eauto.
Qed.

Lemma take_cap_cons (e : Event) events :
  (if (MAX_EVENTS_PER_TENANT <? length (e :: events))%nat
   then take MAX_EVENTS_PER_TENANT (e :: events) else e :: events)
  = take MAX_EVENTS_PER_TENANT (e :: events).
Proof.
  destruct (Nat.ltb_spec MAX_EVENTS_PER_TENANT (length (e :: events)));
    [done|]. by rewrite take_ge.
Qed.

(** [addEvent] on a valid tenant: the event goes to the head, and what
    lies beyond the cap is dropped in the same call. *)
Lemma addEvent_Ok tn e events st :
  tn ∈ config.supportedTenants →
  tenantEvents st !! tn = Some events →
  addEvent (VStr tn) e st =
    Ok (true, {| tenantEvents :=
                   <[tn := take MAX_EVENTS_PER_TENANT (e :: events)]> (tenantEvents st);
                 emitted := emitted st |}).
Proof.
  intros Hin Hl. unfold addEvent.
  assert (isValidTenant (VStr tn) = true) as -> by (apply isValidTenant_iff; eauto).
  cbn [negb map_get]. rewrite Hl. cbv zeta. by rewrite take_cap_cons.
Qed.

Lemma addEvent_inv t e st b st' :
  addEvent t e st = Ok (b, st') →
  ∃ tn events, t = VStr tn ∧ tn ∈ config.supportedTenants ∧
    tenantEvents st !! tn = Some events ∧ b = true ∧
    st' = {| tenantEvents :=
               <[tn := take MAX_EVENTS_PER_TENANT (e :: events)]> (tenantEvents st);
             emitted := emitted st |}.
Proof.
  unfold addEvent. destruct (isValidTenant t) eqn:Hv; cbn [negb]; [|done].
  apply isValidTenant_iff in Hv as (tn & -> & Hin). cbn [map_get].
  destruct (tenantEvents st !! tn) as [events|] eqn:Hl; [|done].
  cbv zeta. rewrite take_cap_cons. intros [= <- <-]. by exists tn, events.
Qed.

(** [createEvent] returns exactly for a valid tenant and a non-empty
    string of at most 500 code units. *)
Lemma createEvent_Ok i now tn s events st :
  tn ∈ config.supportedTenants →
  tenantEvents st !! tn = Some events →
  s ≠ [] → (length s ≤ 500)%nat →
  let e := {| id := i; tenant_id := VStr tn; message := trim s; timestamp := now |} in
  createEvent i now (VStr tn) (VStr s) st =
    Ok (e, {| tenantEvents :=
                <[tn := take MAX_EVENTS_PER_TENANT (e :: events)]> (tenantEvents st);
              emitted := (VStr tn, e) :: emitted st |}).
Proof.
  intros Hin Hl Hs Hlen e. unfold createEvent.
  assert (isValidTenant (VStr tn) = true) as -> by (apply isValidTenant_iff; eauto).
  destruct s as [|c s]; [done|]. cbn [negb orb truthy is_string].
  destruct (Z.ltb_spec config.maxEventMessageLength (Z.of_nat (length (c :: s))))
    as [Hgt|_].
  { unfold config.maxEventMessageLength in Hgt. lia. }
  by rewrite (addEvent_Ok tn _ events).
Qed.

Lemma createEvent_inv i now t m st e st' :
  createEvent i now t m st = Ok (e, st') →
  ∃ tn s events, t = VStr tn ∧ m = VStr s ∧ tn ∈ config.supportedTenants ∧
    tenantEvents st !! tn = Some events ∧ s ≠ [] ∧ (length s ≤ 500)%nat ∧
    e = {| id := i; tenant_id := VStr tn; message := trim s; timestamp := now |} ∧
    st' = {| tenantEvents :=
               <[tn := take MAX_EVENTS_PER_TENANT (e :: events)]> (tenantEvents st);
             emitted := (VStr tn, e) :: emitted st |}.
Proof.
  unfold createEvent. destruct (isValidTenant t) eqn:Hv; simpl; [|done].
  destruct m as [| | | |s|]; simpl; try done;
    try (by destruct (negb _)); try (by destruct (_ =? _)%Z).
  destruct s as [|c s]; simpl; [done|].
  destruct (Z.ltb_spec config.maxEventMessageLength (Z.of_nat (S (length s))))
    as [|Hle]; [done|].
  destruct (addEvent t _ st) as [[b st1]|] eqn:Ha; simpl; [|done].
  apply addEvent_inv in Ha as (tn & events & -> & Hin & Hl & -> & ->).
  simpl. intros [= <- <-]. exists tn, (c :: s), events.
  unfold config.maxEventMessageLength in Hle. simpl. repeat split; try done. lia.
Qed.

End Store.

(** ** Invariants of the store *)

Section Invariants.

Lemma init_lookup t :
  tenantEvents init !! t =
    if bool_decide (t ∈ config.supportedTenants) then Some [] else None.
Proof.
  unfold init. cbn [tenantEvents].
  assert (H : ∀ l (m : gmap jsstring (list Event)),
            fold_left (λ m t, <[t := []]> m) l m !! t =
              if bool_decide (t ∈ l) then Some [] else m !! t).
  { induction l as [|x l IH]; intros m; simpl; [done|]. rewrite IH.
    destruct (decide (t ∈ l)) as [Hl|Hl].
    - rewrite !bool_decide_eq_true_2; [done| |done]. by right.
    - rewrite (bool_decide_eq_false_2 _ Hl).
      destruct (decide (x = t)) as [->|Hx].
      + rewrite bool_decide_eq_true_2 by left. apply lookup_insert_eq.
      + rewrite bool_decide_eq_false_2 by (by intros [?|?]%elem_of_cons).
        by apply lookup_insert_ne. }
  by rewrite H, lookup_empty.
Qed.

Lemma init_wf : wf init.
Proof.
  intros t Ht. rewrite init_lookup, bool_decide_eq_true_2 by done. by eexists.
Qed.

Lemma init_capped : capped init.
Proof.
  intros t events. rewrite init_lookup. case_bool_decide; [|done].
  intros [= <-]. simpl. unfold MAX_EVENTS_PER_TENANT. lia.
Qed.

Lemma wf_insert st tn events em :
  wf st → wf {| tenantEvents := <[tn := events]> (tenantEvents st); emitted := em |}.
Proof.
  intros Hwf t Ht. cbn [tenantEvents].
  destruct (decide (tn = t)) as [->|Hne].
  - rewrite lookup_insert_eq. by eexists.
  - rewrite lookup_insert_ne by done. by apply Hwf.
Qed.

Lemma capped_insert st tn events em :
  capped st → (length events ≤ MAX_EVENTS_PER_TENANT)%nat →
  capped {| tenantEvents := <[tn := events]> (tenantEvents st); emitted := em |}.
Proof.
  intros Hc Hlen t evs. cbn [tenantEvents].
  destruct (decide (tn = t)) as [->|Hne].
  - rewrite lookup_insert_eq. by intros [= <-].
  - rewrite lookup_insert_ne by done. apply Hc.
Qed.

Lemma take_cap_length (l : list Event) :
  (length (take MAX_EVENTS_PER_TENANT l) ≤ MAX_EVENTS_PER_TENANT)%nat.
Proof. rewrite length_take. lia. Qed.

Lemma step_inv st o : wf st ∧ capped st → wf (step st o) ∧ capped (step st o).
Proof.
  intros [Hwf Hc]. destruct o as [t e|i now t m|t]; simpl.
  - destruct (addEvent t e st) as [[b st']|] eqn:Ha; [|done].
    apply addEvent_inv in Ha as (tn & events & -> & _ & _ & _ & ->).
    split; [by apply wf_insert | apply capped_insert; [done | apply take_cap_length]].
  - destruct (createEvent i now t m st) as [[e st']|] eqn:Ha; [|done].
    apply createEvent_inv in Ha
      as (tn & s & events & -> & -> & _ & _ & _ & _ & _ & ->).
    split; [by apply wf_insert | apply capped_insert; [done | apply take_cap_length]].
  - unfold clearTenantEvents.
    destruct (isValidTenant t) eqn:Hv; simpl; [|done].
    apply isValidTenant_iff in Hv as (tn & -> & _).
    split; [by apply wf_insert | apply capped_insert; [done | simpl; lia]].
Qed.

Lemma run_inv ops st : wf st ∧ capped st → wf (run ops st) ∧ capped (run ops st).
Proof.
  revert st. induction ops as [|o ops IH]; intros st H; simpl; [done|].
  apply IH, step_inv, H.
Qed.

Lemma reachable_inv ops : wf (run ops init) ∧ capped (run ops init).
Proof. apply run_inv. split; [apply init_wf | apply init_capped]. Qed.

Lemma getEventCount_Ok tn events st :
  tn ∈ config.supportedTenants → tenantEvents st !! tn = Some events →
  getEventCount (VStr tn) st = Ok (Z.of_nat (length events)).
Proof.
  intros Hin Hl. unfold getEventCount.
  assert (isValidTenant (VStr tn) = true) as -> by (apply isValidTenant_iff; eauto).
  cbn [negb map_get]. by rewrite Hl.
Qed.

Lemma getEventCount_invalid t st :
  isValidTenant t = false → getEventCount t st = Ok 0%Z.
Proof. intros Hv. unfold getEventCount. by rewrite Hv. Qed.

Lemma getEvents_Ok tn events limit st :
  tn ∈ config.supportedTenants → tenantEvents st !! tn = Some events →
  getEvents (VStr tn) limit st =
    Ok match limit with
       | LimitNum n => if (n =? 0)%Z then events else slice0 events n
       | _ => events
       end.
Proof.
  intros Hin Hl. unfold getEvents.
  assert (isValidTenant (VStr tn) = true) as -> by (apply isValidTenant_iff; eauto).
  cbn [negb map_get]. rewrite Hl.
  destruct limit as [| |n]; try done. by destruct (n =? 0)%Z.
Qed.

Lemma slice0_pos {A} (l : list A) n :
  (0 ≤ n)%Z → slice0 l n = take (Z.to_nat n) l.
Proof.
  intros Hn. unfold slice0. destruct (Z.ltb_spec n 0) as [|_]; [lia|].
  destruct (Z.min_spec n (Z.of_nat (length l))) as [[_ ->]|[Hle ->]]; [done|].
  rewrite Nat2Z.id, take_ge, take_ge; [done|lia|lia].
Qed.

End Invariants.

(** ** Batches of creations *)

Section Batches.

Lemma take_app_take {A} n (l k : list A) :
  take n (l ++ take n k) = take n (l ++ k).
Proof.
  rewrite !take_app, take_take. do 2 f_equal. lia.
Qed.

Lemma createEvents_inv tn reqs : ∀ st old evs st',
  tenantEvents st !! tn = Some old →
  (length old ≤ MAX_EVENTS_PER_TENANT)%nat →
  createEvents (VStr tn) reqs st = Ok (evs, st') →
  Forall2 (created tn) reqs evs ∧
  tenantEvents st' !! tn = Some (take MAX_EVENTS_PER_TENANT (rev evs ++ old)) ∧
  (∀ tn', tn' ≠ tn → tenantEvents st' !! tn' = tenantEvents st !! tn').
Proof.
  induction reqs as [|r reqs IH]; intros st old evs st' Hl Hcap; simpl.
  - intros [= <- <-]. split; [constructor|]. split; [|done].
    simpl. by rewrite take_ge.
  - destruct (createEvent _ _ _ _ st) as [[e st1]|] eqn:Hc; simpl; [|done].
    destruct (createEvents _ reqs st1) as [[evs1 st2]|] eqn:Hcs; simpl; [|done].
    intros [= <- <-].
    apply createEvent_inv in Hc
      as (tn0 & s & events & [= <-] & Hm & Hin & Hl0 & Hs & Hlen & He & ->).
    rewrite Hl in Hl0. injection Hl0 as <-.
    eapply IH in Hcs as (HF & Hlog & Hother);
      [| cbn [tenantEvents]; apply lookup_insert_eq | apply take_cap_length].
    split; [|split].
    + constructor; [|done]. by exists s.
    + rewrite Hlog, take_app_take. simpl. by rewrite <- app_assoc.
    + intros tn' Hne. rewrite Hother by done. cbn [tenantEvents].
      by apply lookup_insert_ne.
Qed.

(** The calls of a batch all return when every message is a non-empty
    string of at most 500 code units. *)
Lemma createEvents_Ok tn reqs : ∀ st,
  tn ∈ config.supportedTenants →
  is_Some (tenantEvents st !! tn) →
  Forall (λ r, ∃ s, req_message r = VStr s ∧ s ≠ [] ∧ (length s ≤ 500)%nat) reqs →
  ∃ evs st', createEvents (VStr tn) reqs st = Ok (evs, st').
Proof.
  intros st Hin. revert st.
  induction reqs as [|r reqs IH]; intros st [old Hl] Hall; simpl; [eauto|].
  inversion Hall as [|? ? (s & Hm & Hs & Hlen) Hrest]; subst.
  rewrite Hm, (createEvent_Ok _ _ tn s old) by done. simpl.
  match goal with
  | |- context [createEvents _ reqs ?st1] =>
      destruct (IH st1) as (evs & st' & ->)
  end.
  - cbn [tenantEvents]. rewrite lookup_insert_eq. by eexists.
  - done.
  - simpl. eauto.
Qed.

End Batches.

(** * The claims *)

Lemma tenant_a_supported : tenant_a ∈ config.supportedTenants.
Proof. unfold config.supportedTenants, tenant_a. set_solver. Qed.

Lemma tenant_b_supported : tenant_b ∈ config.supportedTenants.
Proof. unfold config.supportedTenants, tenant_b. set_solver. Qed.

Lemma init_tenant_a : tenantEvents init !! tenant_a = Some [].
Proof.
  rewrite init_lookup. by rewrite bool_decide_eq_true_2 by apply tenant_a_supported.
Qed.

Lemma init_tenant_b : tenantEvents init !! tenant_b = Some [].
Proof.
  rewrite init_lookup. by rewrite bool_decide_eq_true_2 by apply tenant_b_supported.
Qed.

(** ** The sanitizer *)

(** C10.  [sanitizeMessage] returns on every input.  On an input that is not
    a string it returns the empty string.  On a string it returns the
    one-pass escaping of the trimmed input: the result has no white space at
    either end, holds no literal [<], [>], double quote, single quote or
    [/], and each of its ampersands starts one of the six entities; since
    each input code unit is escaped once, no entity is escaped again. *)
Theorem sanitizeMessage_total_escaped (msg : value) :
  ∃ out, sanitizeMessage msg = out ∧
         match msg with
         | VStr s =>
             out = flat_map escape_char (trim s) ∧
             trim out = out ∧ trimmed out ∧ escaped out
         | _ => out = []
         end.
Proof.
  exists (sanitizeMessage msg). split; [done|].
  destruct msg as [| |b|z|s|props]; try done.
  rewrite sanitizeMessage_single_pass. split; [done|]. split; [|split].
  - by rewrite trim_escape, trim_idemp.
  - rewrite <- trim_escape. apply trim_trimmed.
  - apply flat_map_escape_escaped.
Qed.

Lemma sanitizeMessage_escaped msg : escaped (sanitizeMessage msg).
Proof.
  destruct msg; try (split; [by intros c ?%elem_of_nil | by intros []]).
  rewrite sanitizeMessage_single_pass. apply flat_map_escape_escaped.
Qed.

Lemma sanitizeMessage_trim msg : trim (sanitizeMessage msg) = sanitizeMessage msg.
Proof.
  destruct msg; try done.
  by rewrite sanitizeMessage_single_pass, trim_escape, trim_idemp.
Qed.

(** ** Creation *)

(** C1, as stated, fails: [createEvent] stores the text it is given, markup
    included. *)
Lemma createEvent_keeps_markup :
  ¬ (∀ i now t m st e st',
       isValidTenant t = true →
       createEvent i now t m st = Ok (e, st') →
       escaped (message e)).
Proof.
  intros H.
  pose proof (createEvent_Ok (js "id") (js "now") tenant_a (js "<script>x</script>")
                [] init tenant_a_supported init_tenant_a) as Hc.
  cbv zeta in Hc. specialize (Hc ltac:(done) ltac:(vm_compute; lia)).
  eapply H in Hc; [|apply isValidTenant_iff; eauto using tenant_a_supported].
  destruct Hc as [Hno _]. specialize (Hno LT). cbn [message] in Hno.
  assert (LT ∈ trim (js "<script>x</script>")) as Hin by (vm_compute; left).
  by specialize (Hno Hin).
Qed.

(** C1, amended.  On the path of the request handler, which sanitizes the
    message of the request and hands the result to [createEvent], a creation
    that returns has stored, at the head of the tenant's log, an event whose
    message is the sanitized text: no literal markup character and no
    ampersand outside an entity.  [createEvent] on its own stores its
    argument trimmed.  The handler's path turns the script tag of the
    specification into entities. *)
Theorem sanitized_creation_escaped :
  (∀ i now t raw st e st',
     eventController.createEvent i now t raw st = Ok (e, st') →
     isValidTenant t = true ∧
     message e = sanitizeMessage raw ∧
     escaped (message e) ∧
     getEvents t (LimitNum 1) st' = Ok [e]) ∧
  (∀ i now t s st e st',
     createEvent i now t (VStr s) st = Ok (e, st') → message e = trim s) ∧
  (∀ i now, ∃ e st',
     eventController.createEvent i now (VStr tenant_a) (VStr (js "<script>x</script>")) init
       = Ok (e, st') ∧
     message e = js "&lt;script&gt;x&lt;&#x2F;script&gt;").
Proof.
  split; [|split].
  - intros i now t raw st e st' Hc.
    unfold eventController.createEvent in Hc. cbv zeta in Hc.
    apply createEvent_inv in Hc
      as (tn & s & events & -> & [= <-] & Hin & Hl & Hs & Hlen & -> & ->).
    cbn [message]. rewrite sanitizeMessage_trim.
    split; [apply isValidTenant_iff; eauto|]. split; [done|].
    split; [apply sanitizeMessage_escaped|].
    erewrite getEvents_Ok; [|done|cbn [tenantEvents]; apply lookup_insert_eq].
    simpl. by rewrite slice0_pos by lia.
  - intros i now t s st e st' Hc.
    by apply createEvent_inv in Hc
      as (tn & s' & events & -> & [= <-] & _ & _ & _ & _ & -> & _).
  - intros i now. unfold eventController.createEvent. cbv zeta.
    pose proof (createEvent_Ok i now tenant_a
                  (sanitizeMessage (VStr (js "<script>x</script>")))
                  [] init tenant_a_supported init_tenant_a) as Hc.
    cbv zeta in Hc. rewrite Hc; [|by vm_compute|vm_compute; lia].
    eexists _, _. split; [done|]. cbn [message]. by vm_compute.
Qed.

Lemma sanitized_creation_escaped_witness :
  ∃ e st',
    eventController.createEvent (js "id-1") (js "2025-01-20T10:30:00.000Z")
      (VStr tenant_a) (VStr (js "a & b")) init = Ok (e, st') ∧
    message e = js "a &amp; b" ∧ escaped (message e).
Proof.
  eexists _, _. split; [by vm_compute|]. split; [by vm_compute|].
  eapply (proj1 sanitized_creation_escaped (js "id-1") (js "2025-01-20T10:30:00.000Z")
            (VStr tenant_a) (VStr (js "a & b")) init).
  by vm_compute.
Defined.

(** C2.  A message of white space only passes the checks of [createEvent],
    which test the text before it is trimmed: the call returns, and an event
    with an empty message is stored. *)
Theorem createEvent_whitespace_only_stored :
  ∀ i now, ∃ e st',
    createEvent i now (VStr tenant_a) (VStr (js "   ")) init = Ok (e, st') ∧
    message e = [] ∧
    getEventCount (VStr tenant_a) st' = Ok 1%Z ∧
    getEvents (VStr tenant_a) LimitOmitted st' = Ok [e].
Proof.
  intros i now.
  pose proof (createEvent_Ok i now tenant_a (js "   ") [] init
                tenant_a_supported init_tenant_a) as Hc.
  cbv zeta in Hc. rewrite Hc; [|by vm_compute|vm_compute; lia].
  eexists _, _. split; [done|]. split; [by vm_compute|]. split.
  - erewrite getEventCount_Ok;
      [|apply tenant_a_supported|cbn [tenantEvents]; apply lookup_insert_eq].
    done.
  - erewrite getEvents_Ok;
      [|apply tenant_a_supported|cbn [tenantEvents]; apply lookup_insert_eq].
    done.
Qed.

(** For a valid tenant, [createEvent] throws its message error exactly on
    what is not a string and on the empty string. *)
Lemma createEvent_MessageRequired_iff i now t m st :
  isValidTenant t = true →
  createEvent i now t m st = Throw MessageRequired ↔
  is_string m = false ∨ m = VStr [].
Proof.
  intros Hv. unfold createEvent. rewrite Hv. cbn [negb].
  destruct m as [| |b|z|s|props]; cbn [truthy is_string negb orb];
    try (split; [by left | done]).
  - split; [by left | by destruct (negb b)].
  - split; [by left | by destruct (negb (negb _))].
  - destruct s as [|c s]; [split; [by right | done]|].
    cbn [negb]. destruct (_ <? _)%Z; [split; [done | by intros [|]]|].
    destruct (addEvent t _ st) as [[b st1]|e] eqn:Ha; simpl;
      (split; [|by intros [|]]); try done.
    intros [= ->]. unfold addEvent in Ha. rewrite Hv in Ha. cbn [negb] in Ha.
    destruct t; try done. by destruct (map_get _ _).
Qed.

(** ** The validation pre-check *)

(** C3, as stated, fails: a message of 501 spaces is too long and is empty
    once trimmed, and only the first of the two errors is reported. *)
Lemma validateEventData_short_circuits :
  (500 < length (spaces 501))%nat ∧
  trim (spaces 501) = [] ∧
  errors (validateEventData (with_message (spaces 501))) = [E_TOO_LONG] ∧
  E_EMPTY ∉ errors (validateEventData (with_message (spaces 501))).
Proof.
  split; [vm_compute; lia|]. split; [by vm_compute|].
  assert (errors (validateEventData (with_message (spaces 501))) = [E_TOO_LONG])
    as -> by (by vm_compute).
  split; [done|]. by intros [[=]|[]%elem_of_nil]%elem_of_cons.
Qed.

(** C3, amended.  [validateEventData] is a function of its argument alone
    and reports the first failing check only, in the order: the data is
    there, the message is a non-empty string, the message has at most 500
    code units, the message is not empty once trimmed.  So it never returns
    more than one error; it is valid exactly when it returns none; and a
    message of 501 letters is invalid with the length error. *)
Theorem validateEventData_first_error :
  (∀ eventData,
     (length (errors (validateEventData eventData)) ≤ 1)%nat ∧
     isValid (validateEventData eventData)
       = bool_decide (errors (validateEventData eventData) = [])) ∧
  (∀ eventData,
     truthy eventData = false →
     validateEventData eventData = {| isValid := false; errors := [E_DATA] |}) ∧
  (∀ eventData,
     truthy eventData = true →
     is_string (get_message eventData) = false ∨ get_message eventData = VStr [] →
     validateEventData eventData = {| isValid := false; errors := [E_REQUIRED] |}) ∧
  (∀ eventData s,
     truthy eventData = true → get_message eventData = VStr s →
     (500 < length s)%nat →
     validateEventData eventData = {| isValid := false; errors := [E_TOO_LONG] |}) ∧
  (∀ eventData s,
     truthy eventData = true → get_message eventData = VStr s →
     s ≠ [] → (length s ≤ 500)%nat → trim s = [] →
     validateEventData eventData = {| isValid := false; errors := [E_EMPTY] |}) ∧
  (∀ eventData s,
     truthy eventData = true → get_message eventData = VStr s →
     (length s ≤ 500)%nat → trim s ≠ [] →
     validateEventData eventData = {| isValid := true; errors := [] |}) ∧
  validateEventData (with_message (replicate 501 97%N))
    = {| isValid := false; errors := [E_TOO_LONG] |}.
Proof.
  split; [|split; [|split; [|split; [|split; [|split]]]]].
  - intros eventData. unfold validateEventData.
    destruct (truthy eventData); cbn [negb]; [|by split].
    destruct (get_message eventData) as [| |b|z|s|props];
      cbn [truthy is_string negb orb]; try (by split).
    + destruct (negb b); by split.
    + destruct (negb (negb _)); by split.
    + destruct s as [|c s]; cbn [negb]; [by split|].
      destruct (_ <? _)%Z; [by split|].
      destruct (length (trim (c :: s)) =? 0)%nat; split; (simpl; lia) || done.
  - intros eventData Ht. unfold validateEventData. by rewrite Ht.
  - intros eventData Ht Hm. unfold validateEventData. rewrite Ht. cbn [negb].
    destruct Hm as [Hm| ->]; [|done]. rewrite Hm. cbn [negb].
    by rewrite orb_true_r.
  - intros eventData s Ht Hm Hlen. unfold validateEventData.
    rewrite Ht, Hm. cbn [negb]. destruct s as [|c s]; [simpl in Hlen; lia|].
    cbn [truthy is_string negb orb].
    destruct (Z.ltb_spec config.maxEventMessageLength (Z.of_nat (length (c :: s))))
      as [_|Hle]; [done|]. unfold config.maxEventMessageLength in Hle. lia.
  - intros eventData s Ht Hm Hs Hlen Htrim. unfold validateEventData.
    rewrite Ht, Hm. cbn [negb]. destruct s as [|c s]; [done|].
    cbn [truthy is_string negb orb].
    destruct (Z.ltb_spec config.maxEventMessageLength (Z.of_nat (length (c :: s))))
      as [Hgt|_]; [unfold config.maxEventMessageLength in Hgt; lia|].
    by rewrite Htrim.
  - intros eventData s Ht Hm Hlen Htrim. unfold validateEventData.
    rewrite Ht, Hm. cbn [negb].
    destruct s as [|c s]; [by destruct Htrim|].
    cbn [truthy is_string negb orb].
    destruct (Z.ltb_spec config.maxEventMessageLength (Z.of_nat (length (c :: s))))
      as [Hgt|_]; [unfold config.maxEventMessageLength in Hgt; lia|].
    destruct (trim (c :: s)); done.
  - by vm_compute.
Qed.

Lemma validateEventData_first_error_witness :
  validateEventData (with_message (js "   "))
    = {| isValid := false; errors := [E_EMPTY] |} ∧
  validateEventData (with_message (js " Valid message "))
    = {| isValid := true; errors := [] |} ∧
  validateEventData VNull = {| isValid := false; errors := [E_DATA] |} ∧
  validateEventData (VObj []) = {| isValid := false; errors := [E_REQUIRED] |} ∧
  validateEventData (with_message (spaces 501))
    = {| isValid := false; errors := [E_TOO_LONG] |}.
Proof.
  destruct validateEventData_first_error as (_ & Hdata & Hreq & Hlong & Hempty & Hok & _).
  split; [|split; [|split; [|split]]].
  - apply (Hempty _ (js "   ")); [reflexivity|reflexivity|done|vm_compute; lia|reflexivity].
  - apply (Hok _ (js " Valid message ")); [reflexivity|reflexivity|vm_compute; lia|by vm_compute].
  - apply Hdata. reflexivity.
  - apply Hreq; [reflexivity|left; reflexivity].
  - apply (Hlong _ (spaces 501)); [reflexivity|reflexivity|vm_compute; lia].
Defined.

(** ** The bounded log *)

Section Log.

Lemma created_id tn reqs evs :
  Forall2 (created tn) reqs evs → map id evs = map req_id reqs.
Proof.
  induction 1 as [|r e reqs evs (s & _ & _ & _ & ->) _ IH]; simpl; [done|].
  by rewrite IH.
Qed.

Lemma slice0_elem_of {A} (l : list A) n x : x ∈ slice0 l n → x ∈ l.
Proof.
  unfold slice0. intros (i & Hi & _)%elem_of_take.
  by eapply list_elem_of_lookup_2.
Qed.

Lemma getEvents_elem_of tn events limit st :
  tn ∈ config.supportedTenants → tenantEvents st !! tn = Some events →
  ∃ l, getEvents (VStr tn) limit st = Ok l ∧ ∀ e, e ∈ l → e ∈ events.
Proof.
  intros Hin Hl. rewrite (getEvents_Ok tn events) by done.
  eexists. split; [done|]. intros e.
  destruct limit as [| |n]; try done.
  destruct (n =? 0)%Z; [done | apply slice0_elem_of].
Qed.

(** After one creation more than the cap on an empty log, the log is the
    cap's worth of newest events, and the first one has left it. *)
Lemma overflow_by_one tn reqs st evs st' first :
  tenantEvents st !! tn = Some [] →
  length reqs = S MAX_EVENTS_PER_TENANT →
  createEvents (VStr tn) reqs st = Ok (evs, st') →
  head evs = Some first →
  ∃ rest, evs = first :: rest ∧ length rest = MAX_EVENTS_PER_TENANT ∧
          tenantEvents st' !! tn = Some (rev rest) ∧
          map id evs = map req_id reqs.
Proof.
  intros Hl Hlen Hc Hfirst.
  apply (createEvents_inv tn reqs st []) in Hc as (HF & Hlog & _);
    [|done|simpl; lia].
  destruct evs as [|e rest]; [done|]. injection Hfirst as ->.
  exists rest. split; [done|].
  assert (length rest = MAX_EVENTS_PER_TENANT) as Hrest.
  { apply Forall2_length in HF. simpl in HF. lia. }
  split; [done|]. split; [|by apply (created_id tn)].
  rewrite Hlog, app_nil_r. cbn [rev].
  rewrite take_app_length'; [done|]. by rewrite length_rev.
Qed.

End Log.

(** C4.  In every state the calls can reach, no tenant's count exceeds
    1000.  [addEvent] puts the event at the head and keeps the first 1000
    entries, so what falls off is the tail, within the same call.  After
    1001 creations that returned, for one tenant with an empty log, the
    count is 1000 and no list of that tenant, whatever the limit, holds the
    first event created (events being told apart by their ids). *)
Theorem log_never_exceeds_cap :
  (∀ ops t, ∃ n, getEventCount t (run ops init) = Ok n ∧ (0 ≤ n ≤ 1000)%Z) ∧
  (∀ tn e events st,
     tn ∈ config.supportedTenants → tenantEvents st !! tn = Some events →
     ∃ st', addEvent (VStr tn) e st = Ok (true, st') ∧
            tenantEvents st' !! tn = Some (take 1000 (e :: events)) ∧
            getEventCount (VStr tn) st'
              = Ok (Z.of_nat (Nat.min 1000 (S (length events))))) ∧
  (∀ tn reqs st evs st' first,
     tn ∈ config.supportedTenants →
     tenantEvents st !! tn = Some [] →
     length reqs = 1001%nat →
     NoDup (map req_id reqs) →
     createEvents (VStr tn) reqs st = Ok (evs, st') →
     head evs = Some first →
     getEventCount (VStr tn) st' = Ok 1000%Z ∧
     ∀ limit, ∃ l, getEvents (VStr tn) limit st' = Ok l ∧
                   (first ∉ l) ∧ (∀ e, e ∈ l → id e ≠ id first)).
Proof.
  split; [|split].
  - intros ops t. destruct (reachable_inv ops) as [Hwf Hcap].
    destruct (isValidTenant t) eqn:Hv.
    + destruct (wf_lookup _ _ Hwf Hv) as (tn & events & -> & Hin & Hl).
      rewrite (getEventCount_Ok tn events) by done. eexists. split; [done|].
      specialize (Hcap tn events Hl). unfold MAX_EVENTS_PER_TENANT in Hcap. lia.
    + rewrite getEventCount_invalid by done. exists 0%Z. split; [done|lia].
  - intros tn e events st Hin Hl. rewrite (addEvent_Ok tn e events) by done.
    eexists. split; [done|]. cbn [tenantEvents].
    split; [apply lookup_insert_eq|].
    erewrite getEventCount_Ok; [|done|cbn [tenantEvents]; apply lookup_insert_eq].
    by rewrite length_take.
  - intros tn reqs st evs st' first Hin Hl Hlen Hnd Hc Hfirst.
    destruct (overflow_by_one tn reqs st evs st' first Hl Hlen Hc Hfirst)
      as (rest & -> & Hrest & Hlog & Hids).
    split.
    { rewrite (getEventCount_Ok tn (rev rest)) by done.
      rewrite length_rev, Hrest. done. }
    rewrite <- Hids in Hnd. cbn [map] in Hnd. apply NoDup_cons in Hnd as [Hnotin _].
    intros limit.
    destruct (getEvents_elem_of tn (rev rest) limit st' Hin Hlog) as (l & -> & Hsub).
    exists l. split; [done|].
    assert (∀ e, e ∈ l → id e ≠ id first) as Hne.
    { intros e He Heq. apply Hnotin. rewrite <- Heq.
      apply list_elem_of_In, in_map, in_rev, list_elem_of_In, Hsub, He. }
    split; [|done]. intros Hf. by apply (Hne first Hf).
Qed.

Lemma requests_1001_ids_NoDup : NoDup (map req_id requests_1001).
Proof.
  unfold requests_1001. rewrite map_map. cbn [numbered_request req_id].
  assert (Inj (=) (=) (λ n, [N.of_nat n])) as Hinj.
  { intros n m [= H]. by apply Nat2N.inj. }
  apply (NoDup_fmap_2 _), NoDup_seq.
Qed.

Lemma numbered_requests_accepted k n :
  Forall (λ r, ∃ s, req_message r = VStr s ∧ s ≠ [] ∧ (length s ≤ 500)%nat)
         (map numbered_request (seq k n)).
Proof.
  apply Forall_forall. intros r (m & -> & _)%list_elem_of_fmap.
  exists (js "event"). split; [done|]. split; [done|]. vm_compute. lia.
Qed.

Lemma log_never_exceeds_cap_witness :
  ∃ evs st' first,
    createEvents (VStr tenant_a) requests_1001 init = Ok (evs, st') ∧
    head evs = Some first ∧
    getEventCount (VStr tenant_a) st' = Ok 1000%Z ∧
    ∀ limit, ∃ l, getEvents (VStr tenant_a) limit st' = Ok l ∧
                  (first ∉ l) ∧ (∀ e, e ∈ l → id e ≠ id first).
Proof.
  destruct (createEvents_Ok tenant_a requests_1001 init tenant_a_supported)
    as (evs & st' & Hc).
  { rewrite init_tenant_a. by eexists. }
  { apply numbered_requests_accepted. }
  assert (∃ first, head evs = Some first) as [first Hfirst].
  { destruct (createEvents_inv tenant_a requests_1001 init [] evs st')
      as (HF & _); [apply init_tenant_a|simpl; lia|exact Hc|].
    apply Forall2_length in HF. destruct evs as [|e evs]; [done|]. by exists e. }
  exists evs, st', first. split; [exact Hc|]. split; [exact Hfirst|].
  apply (proj2 (proj2 log_never_exceeds_cap) tenant_a requests_1001 init evs).
  - apply tenant_a_supported.
  - apply init_tenant_a.
  - reflexivity.
  - apply requests_1001_ids_NoDup.
  - exact Hc.
  - exact Hfirst.
Defined.

(** ** Order and counts *)

(** C5.  After N creations that returned (N at most 1000), for one tenant
    with an empty log, the count is N and the list with limit N is the N
    events, newest first: its head is the event created last.  After "m1",
    "m2", "m3" for tenant_a, the list with limit 2 reads "m3", "m2", the
    count of tenant_a is 3 and the count of tenant_b is 0. *)
Theorem creations_listed_newest_first :
  (∀ tn reqs st evs st',
     tn ∈ config.supportedTenants →
     tenantEvents st !! tn = Some [] →
     (length reqs ≤ 1000)%nat →
     createEvents (VStr tn) reqs st = Ok (evs, st') →
     getEventCount (VStr tn) st' = Ok (Z.of_nat (length reqs)) ∧
     getEvents (VStr tn) (LimitNum (Z.of_nat (length reqs))) st' = Ok (rev evs) ∧
     head (rev evs) = last evs) ∧
  (∀ i1 i2 i3 n1 n2 n3, ∃ e1 e2 e3 st',
     createEvents (VStr tenant_a)
       [mkRequest i1 n1 (VStr (js "m1")); mkRequest i2 n2 (VStr (js "m2"));
        mkRequest i3 n3 (VStr (js "m3"))] init = Ok ([e1; e2; e3], st') ∧
     getEvents (VStr tenant_a) (LimitNum 2) st' = Ok [e3; e2] ∧
     map message [e3; e2] = [js "m3"; js "m2"] ∧
     getEventCount (VStr tenant_a) st' = Ok 3%Z ∧
     getEventCount (VStr tenant_b) st' = Ok 0%Z).
Proof.
  split.
  - intros tn reqs st evs st' Hin Hl Hlen Hc.
    apply (createEvents_inv tn reqs st []) in Hc as (HF & Hlog & _);
      [|done|simpl; lia].
    apply Forall2_length in HF. rewrite app_nil_r in Hlog.
    rewrite take_ge in Hlog by (rewrite length_rev; unfold MAX_EVENTS_PER_TENANT; lia).
    split; [|split].
    + rewrite (getEventCount_Ok tn (rev evs)) by done.
      by rewrite length_rev, HF.
    + rewrite (getEvents_Ok tn (rev evs)) by done. f_equal.
      destruct (Z.eqb_spec (Z.of_nat (length reqs)) 0) as [|_]; [done|].
      rewrite slice0_pos by lia. rewrite Nat2Z.id, take_ge; [done|].
      rewrite length_rev. lia.
    + by rewrite <- last_rev_head, rev_involutive.
  - intros i1 i2 i3 n1 n2 n3.
    set (reqs := [mkRequest i1 n1 _; _; _]).
    destruct (createEvents_Ok tenant_a reqs init tenant_a_supported) as (evs & st' & Hc).
    { rewrite init_tenant_a. by eexists. }
    { subst reqs.
      repeat (apply List.Forall_cons;
              [eexists; split; [reflexivity|]; split; [done|vm_compute; lia]|]).
      apply List.Forall_nil. }
    pose proof Hc as Hc'.
    apply (createEvents_inv tenant_a reqs init []) in Hc' as (HF & Hlog & Hother);
      [|apply init_tenant_a|simpl; lia].
    subst reqs.
    inversion HF as [|r1 e1 ? ? (s1 & Hs1 & _ & _ & He1) HF1]; subst.
    inversion HF1 as [|r2 e2 ? ? (s2 & Hs2 & _ & _ & He2) HF2]; subst.
    inversion HF2 as [|r3 e3 ? ? (s3 & Hs3 & _ & _ & He3) HF3]; subst.
    inversion HF3; subst. cbn [req_id req_now req_message] in *.
    injection Hs1 as <-. injection Hs2 as <-. injection Hs3 as <-.
    eexists _, _, _, st'. split; [exact Hc|].
    assert (tenantEvents st' !! tenant_a =
              Some [ {| id := i3; tenant_id := VStr tenant_a;
                        message := trim (js "m3"); timestamp := n3 |};
                     {| id := i2; tenant_id := VStr tenant_a;
                        message := trim (js "m2"); timestamp := n2 |};
                     {| id := i1; tenant_id := VStr tenant_a;
                        message := trim (js "m1"); timestamp := n1 |} ]) as Hlog'.
    { rewrite Hlog. reflexivity. }
    split; [|split; [|split]].
    + rewrite (getEvents_Ok tenant_a _ _ _ tenant_a_supported Hlog'). reflexivity.
    + by vm_compute.
    + rewrite (getEventCount_Ok tenant_a _ _ tenant_a_supported Hlog'). reflexivity.
    + erewrite (getEventCount_Ok tenant_b); [|apply tenant_b_supported|].
      2:{ rewrite Hother by done. apply init_tenant_b. }
      reflexivity.
Qed.

Lemma creations_listed_newest_first_witness :
  ∃ evs st',
    createEvents (VStr tenant_b) (map numbered_request (seq 0 5)) init
      = Ok (evs, st') ∧
    getEventCount (VStr tenant_b) st' = Ok 5%Z ∧
    getEvents (VStr tenant_b) (LimitNum 5) st' = Ok (rev evs) ∧
    head (rev evs) = last evs.
Proof.
  pose (reqs := map numbered_request (seq 0 5)).
  pose (evs := map (event_of tenant_b) reqs).
  pose (st' := run (map (create_op tenant_b) reqs) init).
  assert (createEvents (VStr tenant_b) reqs init = Ok (evs, st')) as Hc.
  { vm_cast_no_check (@eq_refl _ (Ok (evs, st'))). }
  exists evs, st'. split; [exact Hc|].
  apply (proj1 creations_listed_newest_first tenant_b reqs init evs st').
  - apply tenant_b_supported.
  - by vm_compute.
  - vm_compute. lia.
  - exact Hc.
Defined.

(** ** The length check *)

(** C6.  For a valid tenant, [createEvent] throws the length error exactly
    when its argument is a string of more than 500 code units, counted
    before any trimming: a string over the bound is refused whatever its
    trimmed length is, and a string within the bound that trimming shortens
    is accepted and stored trimmed. *)
Theorem length_checked_before_trim i now t m st :
  isValidTenant t = true →
  (createEvent i now t m st = Throw MessageTooLong ↔
     ∃ s, m = VStr s ∧ (500 < length s)%nat) ∧
  (∀ s, m = VStr s → (length s ≤ 500)%nat → (length (trim s) < length s)%nat →
        wf st →
        ∃ e st', createEvent i now t m st = Ok (e, st') ∧ message e = trim s).
Proof.
  intros Hv. split.
  - unfold createEvent. rewrite Hv. cbn [negb].
    destruct m as [| |b|z|s|props]; cbn [truthy is_string negb orb];
      try (split; [done | by intros (s & [=] & _)]).
    + split; [by destruct (negb b) | by intros (s & [=] & _)].
    + split; [by destruct (negb (negb _)) | by intros (s & [=] & _)].
    + destruct s as [|c s]; cbn [negb].
      { split; [done|]. intros (s & [= <-] & Hlen). simpl in Hlen. lia. }
      destruct (Z.ltb_spec config.maxEventMessageLength (Z.of_nat (length (c :: s))))
        as [Hgt|Hle]; unfold config.maxEventMessageLength in *.
      * split; [|done]. intros _. exists (c :: s). split; [done|lia].
      * split; [|intros (s' & [= <-] & Hlen); lia].
        destruct (addEvent t _ st) as [[b st1]|e] eqn:Ha; simpl; [done|].
        intros [= ->]. unfold addEvent in Ha. rewrite Hv in Ha. cbn [negb] in Ha.
        destruct t; try done. by destruct (map_get _ _).
  - intros s -> Hlen Htrim Hwf.
    destruct (wf_lookup _ _ Hwf Hv) as (tn & events & -> & Hin & Hl).
    rewrite (createEvent_Ok i now tn s events); [by eexists _, _|done|done| |done].
    intros ->. simpl in Htrim. lia.
Qed.

Lemma length_checked_before_trim_witness :
  createEvent (js "id-1") (js "2025-01-20T10:30:00.000Z") (VStr tenant_a)
    (VStr (97%N :: spaces 500)) init = Throw MessageTooLong ∧
  length (trim (97%N :: spaces 500)) = 1%nat ∧
  ∃ e st', createEvent (js "id-2") (js "2025-01-20T10:30:01.000Z") (VStr tenant_a)
             (VStr (spaces 499 ++ [97%N])) init = Ok (e, st') ∧
           message e = [97%N].
Proof.
  split; [|split].
  - apply (length_checked_before_trim (js "id-1") (js "2025-01-20T10:30:00.000Z")
             (VStr tenant_a) (VStr (97%N :: spaces 500)) init); [reflexivity|].
    exists (97%N :: spaces 500). split; [reflexivity|vm_compute; lia].
  - by vm_compute.
  - destruct (length_checked_before_trim (js "id-2") (js "2025-01-20T10:30:01.000Z")
                (VStr tenant_a) (VStr (spaces 499 ++ [97%N])) init) as [_ H];
      [reflexivity|].
    destruct (H (spaces 499 ++ [97%N])) as (e & st' & Hc & He).
    + reflexivity.
    + vm_compute. lia.
    + vm_compute. lia.
    + intros t Ht. apply list_elem_of_In in Ht. simpl in Ht.
      destruct Ht as [<-|[<-|[]]]; vm_compute; by eexists.
    + exists e, st'. split; [exact Hc|]. rewrite He. by vm_compute.
Defined.

(** ** Listing with a limit *)

(** C7, as stated, fails: with limit 0 the list is the whole log, which is
    more than 0 events. *)
Lemma list_limit_zero_exceeds_limit :
  ¬ (∀ t n st l,
       isValidTenant t = true →
       getEventsByTenant t (LimitNum n) st = Ok l →
       (Z.of_nat (length l) ≤ n)%Z).
Proof.
  intros H.
  specialize (H (VStr tenant_a) 0%Z one_event
                [event_of tenant_a (numbered_request 0)]).
  assert (1 ≤ 0)%Z; [|lia]. apply H; by vm_compute.
Qed.

(** C7, amended.  For a valid tenant and a limit of at least 1, the list is
    the first [limit] events of the log, which is newest first, or the whole
    log when it holds fewer; and a call without a limit is a call with limit
    50. *)
Theorem list_positive_limit tn events st :
  tn ∈ config.supportedTenants →
  tenantEvents st !! tn = Some events →
  (∀ n, (1 ≤ n)%Z →
        getEventsByTenant (VStr tn) (LimitNum n) st = Ok (take (Z.to_nat n) events) ∧
        getEvents (VStr tn) (LimitNum n) st = Ok (take (Z.to_nat n) events) ∧
        Z.of_nat (length (take (Z.to_nat n) events))
          = Z.min n (Z.of_nat (length events))) ∧
  getEventsByTenant (VStr tn) LimitOmitted st
    = getEventsByTenant (VStr tn) (LimitNum 50) st ∧
  getEventsByTenant (VStr tn) LimitOmitted st = Ok (take 50 events).
Proof.
  intros Hin Hl. split; [|split].
  - intros n Hn. unfold getEventsByTenant.
    rewrite (getEvents_Ok tn events) by done.
    destruct (Z.eqb_spec n 0) as [|_]; [lia|].
    rewrite slice0_pos by lia. split; [done|]. split; [done|].
    rewrite length_take. lia.
  - done.
  - unfold getEventsByTenant. rewrite (getEvents_Ok tn events) by done.
    by rewrite slice0_pos by lia.
Qed.

Lemma list_positive_limit_witness :
  getEventsByTenant (VStr tenant_a) (LimitNum 1) one_event
    = Ok [event_of tenant_a (numbered_request 0)] ∧
  getEventsByTenant (VStr tenant_a) LimitOmitted one_event
    = Ok [event_of tenant_a (numbered_request 0)].
Proof.
  destruct (list_positive_limit tenant_a [event_of tenant_a (numbered_request 0)]
              one_event) as (Hn & _ & H50).
  - apply (bool_decide_unpack _). by vm_compute.
  - by vm_compute.
  - split; [|exact H50]. destruct (Hn 1%Z) as [H1 _]; [lia|exact H1].
Defined.

(** C9.  With limit 0 the list operation of the log returns every stored
    event of a valid tenant: 0 is falsy, so the call takes the branch of a
    missing limit. *)
Theorem list_limit_zero_returns_all t st :
  isValidTenant t = true → wf st →
  ∃ events, map_get (tenantEvents st) t = Some events ∧
            getEvents t (LimitNum 0) st = Ok events ∧
            getEvents t (LimitNum 0) st = getEvents t LimitOmitted st ∧
            getEventsByTenant t (LimitNum 0) st = Ok events.
Proof.
  intros Hv Hwf. destruct (wf_lookup _ _ Hwf Hv) as (tn & events & -> & Hin & Hl).
  exists events. unfold getEventsByTenant.
  rewrite !(getEvents_Ok tn events) by done. by cbn [map_get].
Qed.

Lemma list_limit_zero_returns_all_witness :
  getEvents (VStr tenant_a) (LimitNum 0) one_event
    = Ok [event_of tenant_a (numbered_request 0)].
Proof.
  destruct (list_limit_zero_returns_all (VStr tenant_a) one_event)
    as (events & Hl & Hg & _).
  - reflexivity.
  - intros t Ht. apply list_elem_of_In in Ht. simpl in Ht.
    destruct Ht as [<-|[<-|[]]]; vm_compute; by eexists.
  - rewrite Hg. f_equal. vm_compute in Hl. by injection Hl as <-.
Defined.

(** ** Statistics *)

Section Stats.

Lemma sum_counts_insert m t n :
  m !! t = None → sum_counts (<[t := n]> m) = (n + sum_counts m)%Z.
Proof.
  intros Hm. unfold sum_counts. apply map_fold_insert_L; [|done].
  intros. lia.
Qed.

Lemma supportedTenants_NoDup : NoDup config.supportedTenants.
Proof. apply (bool_decide_unpack _). by vm_compute. Qed.

Variable st : state.
Hypothesis st_wf : wf st.

(** The loop of [getEventStats], from any point of the iteration. *)
Lemma stats_loop l : ∀ acc,
  NoDup l →
  (∀ t, t ∈ l → t ∈ config.supportedTenants) →
  (∀ t, t ∈ l → tenantStats acc !! t = None) →
  ∃ s, fold_left (stats_step st) l (Ok acc) = Ok s ∧
       (totalEvents s - sum_counts (tenantStats s)
        = totalEvents acc - sum_counts (tenantStats acc))%Z ∧
       (totalEvents s = totalEvents acc + stored_total st l)%Z ∧
       (∀ t, t ∈ l → ∃ n, getEventCount (VStr t) st = Ok n ∧
                          tenantStats s !! t = Some n) ∧
       (∀ t, t ∉ l → tenantStats s !! t = tenantStats acc !! t).
Proof.
  induction l as [|x l IH]; intros acc Hnd Hsup Hfresh; simpl.
  - exists acc. split; [done|]. split; [done|]. split; [lia|]. split; [|done].
    by intros t ?%elem_of_nil.
  - apply NoDup_cons in Hnd as [Hx Hnd].
    destruct (st_wf x) as [events Hl]; [apply Hsup; left|].
    assert (x ∈ config.supportedTenants) as Hxs by (apply Hsup; left).
    rewrite (getEventCount_Ok x events) by done. simpl.
    set (c := Z.of_nat (length events)).
    destruct (IH {| totalEvents := (totalEvents acc + c)%Z;
                    tenantStats := <[x := c]> (tenantStats acc) |})
      as (s & -> & Hsum & Htot & Hin & Hout); [done| | |].
    { intros t Ht. apply Hsup. by right. }
    { intros t Ht. cbn [tenantStats]. rewrite lookup_insert_ne by (by intros ->).
      apply Hfresh. by right. }
    exists s. split; [done|]. cbn [totalEvents tenantStats] in *.
    split; [|split; [|split]].
    + rewrite Hsum, sum_counts_insert by (apply Hfresh; left). lia.
    + assert (stored st x = c) as Hc by (unfold stored; by rewrite Hl).
      rewrite Htot. unfold stored_total. cbn [foldr]. lia.
    + intros t [->|Ht]%elem_of_cons; [|by apply Hin].
      exists c. split; [by apply getEventCount_Ok|].
      rewrite Hout by done. apply lookup_insert_eq.
    + intros t [Hne Ht]%not_elem_of_cons. rewrite Hout by done.
      by apply lookup_insert_ne.
Qed.

End Stats.

(** C8.  In every state where each supported tenant has its array (every
    state the calls can reach), [getEventStats] returns; its [totalEvents]
    is the sum of the counts in its [tenantStats]; [tenantStats] holds, for
    each supported tenant, the count [getEventCount] returns for it, and
    holds nothing else.  So [totalEvents] is the sum, over the supported
    tenants, of their numbers of stored events. *)
Theorem stats_total_is_sum_of_counts st :
  wf st →
  ∃ s, getEventStats st = Ok s ∧
       totalEvents s = sum_counts (tenantStats s) ∧
       totalEvents s = stored_total st config.supportedTenants ∧
       (∀ t, t ∈ config.supportedTenants →
             getEventCount (VStr t) st = Ok (stored st t) ∧
             tenantStats s !! t = Some (stored st t)) ∧
       (∀ t, t ∉ config.supportedTenants → tenantStats s !! t = None).
Proof.
  intros Hwf. unfold getEventStats, getSupportedTenants.
  destruct (stats_loop st Hwf config.supportedTenants
              {| totalEvents := 0; tenantStats := ∅ |})
    as (s & -> & Hsum & Htot & Hin & Hout); [apply supportedTenants_NoDup|done|done|].
  exists s. split; [done|]. cbn [totalEvents tenantStats] in *.
  split; [|split; [|split]].
  - unfold sum_counts in Hsum at 2. rewrite map_fold_empty in Hsum. lia.
  - lia.
  - intros t Ht. destruct (Hin t Ht) as (n & Hn & Hs).
    destruct (Hwf t Ht) as [events Hl].
    rewrite (getEventCount_Ok t events) in Hn by done. injection Hn as <-.
    unfold stored. rewrite Hl. split; [by apply getEventCount_Ok | done].
  - intros t Ht. by rewrite Hout.
Qed.

Lemma stats_total_is_sum_of_counts_witness :
  ∃ s, getEventStats three_events = Ok s ∧
       totalEvents s = sum_counts (tenantStats s) ∧
       totalEvents s = 3%Z ∧
       tenantStats s !! tenant_a = Some 2%Z ∧
       tenantStats s !! tenant_b = Some 1%Z.
Proof.
  destruct (stats_total_is_sum_of_counts three_events)
    as (s & Hs & Hsum & Htot & Hin & _).
  - intros t Ht. apply list_elem_of_In in Ht. simpl in Ht.
    destruct Ht as [<-|[<-|[]]]; vm_compute; by eexists.
  - exists s. split; [exact Hs|]. split; [exact Hsum|].
    destruct (Hin tenant_a) as [_ ->]; [apply (bool_decide_unpack _); by vm_compute|].
    destruct (Hin tenant_b) as [_ ->]; [apply (bool_decide_unpack _); by vm_compute|].
    rewrite Htot. split; [|split]; vm_compute; reflexivity.
Defined.

(** * Further properties of the services *)

Section Isolation.

Lemma getEvents_ext t limit st1 st2 :
  map_get (tenantEvents st1) t = map_get (tenantEvents st2) t →
  getEvents t limit st1 = getEvents t limit st2.
Proof. intros H. unfold getEvents. by rewrite H. Qed.

Lemma getEventCount_ext t st1 st2 :
  map_get (tenantEvents st1) t = map_get (tenantEvents st2) t →
  getEventCount t st1 = getEventCount t st2.
Proof. intros H. unfold getEventCount. by rewrite H. Qed.

Lemma map_get_insert_other st tn events em t' :
  VStr tn ≠ t' →
  map_get (tenantEvents {| tenantEvents := <[tn := events]> (tenantEvents st);
                           emitted := em |}) t'
  = map_get (tenantEvents st) t'.
Proof.
  intros Hne. destruct t' as [| | | |tn'|]; try done. cbn [map_get tenantEvents].
  apply lookup_insert_ne. by intros ->.
Qed.

Lemma step_other_tenant st o t' :
  op_tenant o ≠ t' →
  map_get (tenantEvents (step st o)) t' = map_get (tenantEvents st) t'.
Proof.
  intros Hne. destruct o as [t e|i now t m|t]; cbn [step op_tenant] in *.
  - destruct (addEvent t e st) as [[b st']|] eqn:Ha; [|done].
    apply addEvent_inv in Ha as (tn & events & -> & _ & _ & _ & ->).
    by apply map_get_insert_other.
  - destruct (createEvent i now t m st) as [[e st']|] eqn:Ha; [|done].
    apply createEvent_inv in Ha
      as (tn & s & events & -> & -> & _ & _ & _ & _ & _ & ->).
    by apply map_get_insert_other.
  - unfold clearTenantEvents.
    destruct (isValidTenant t) eqn:Hv; cbn [negb]; [|done].
    apply isValidTenant_iff in Hv as (tn & -> & _).
    by apply map_get_insert_other.
Qed.

End Isolation.

(** X1.  A call that writes ([addEvent], [createEvent],
    [clearTenantEvents]), whether it returns or throws, changes nothing that
    another tenant can read: for every tenant id other than the one of the
    call, each list and the count are what they were. *)
Theorem writes_leave_other_tenants st o t' :
  op_tenant o ≠ t' →
  (∀ limit, getEvents t' limit (step st o) = getEvents t' limit st) ∧
  (∀ limit, getEventsByTenant t' limit (step st o) = getEventsByTenant t' limit st) ∧
  getEventCount t' (step st o) = getEventCount t' st.
Proof.
  intros Hne. pose proof (step_other_tenant st o t' Hne) as H.
  split; [|split].
  - intros limit. by apply getEvents_ext.
  - intros limit. unfold getEventsByTenant. by apply getEvents_ext.
  - by apply getEventCount_ext.
Qed.

Lemma writes_leave_other_tenants_witness :
  getEventCount (VStr tenant_b) (step one_event (create_op tenant_a (numbered_request 1)))
  = getEventCount (VStr tenant_b) one_event.
Proof.
  apply (writes_leave_other_tenants one_event
           (create_op tenant_a (numbered_request 1)) (VStr tenant_b)).
  by vm_compute.
Defined.

(** X2.  In a state where every supported tenant has its array,
    [createEvent] has exactly four outcomes, decided in this order: an
    unsupported tenant is refused whatever the message is; then a message
    that is not a string, or is empty, is refused; then a string of more
    than 500 code units is refused; every other call returns, and the
    message of the event is the trimmed string.  No other error is
    thrown. *)
Theorem createEvent_outcome i now t m st :
  wf st →
  match createEvent i now t m st with
  | Throw (InvalidTenant v) => v = t ∧ isValidTenant t = false
  | Throw MessageRequired =>
      isValidTenant t = true ∧ (is_string m = false ∨ m = VStr [])
  | Throw MessageTooLong =>
      isValidTenant t = true ∧ ∃ s, m = VStr s ∧ (500 < length s)%nat
  | Throw TypeError => False
  | Ok (e, st') =>
      isValidTenant t = true ∧
      ∃ s, m = VStr s ∧ s ≠ [] ∧ (length s ≤ 500)%nat ∧ message e = trim s
  end.
Proof.
  intros Hwf. destruct (isValidTenant t) eqn:Hv.
  - destruct (wf_lookup _ _ Hwf Hv) as (tn & events & -> & Hin & Hl).
    destruct m as [| |b|z|s|props];
      try (unfold createEvent; rewrite Hv; cbn [negb truthy is_string orb];
           by split; [|left]).
    + unfold createEvent. rewrite Hv. cbn [negb truthy is_string orb].
      rewrite orb_true_r. by split; [|left].
    + unfold createEvent. rewrite Hv. cbn [negb truthy is_string orb].
      rewrite orb_true_r. by split; [|left].
    + destruct s as [|c s].
      { unfold createEvent. rewrite Hv. cbn [negb truthy is_string orb].
        by split; [|right]. }
      destruct (decide (length (c :: s) ≤ 500)%nat) as [Hle|Hgt].
      * rewrite (createEvent_Ok i now tn (c :: s) events) by done.
        split; [done|]. by exists (c :: s).
      * unfold createEvent. rewrite Hv. cbn [negb truthy is_string orb].
        destruct (Z.ltb_spec config.maxEventMessageLength (Z.of_nat (length (c :: s))))
          as [_|Hle]; [|unfold config.maxEventMessageLength in Hle; lia].
        split; [done|]. exists (c :: s). split; [done|lia].
  - unfold createEvent. rewrite Hv. by cbn [negb].
Qed.

Lemma createEvent_outcome_witness :
  createEvent (js "id-1") (js "2025-01-20T10:30:00.000Z")
    (VStr (js "tenant_c")) VNull init = Throw (InvalidTenant (VStr (js "tenant_c"))) ∧
  createEvent (js "id-1") (js "2025-01-20T10:30:00.000Z")
    (VStr tenant_a) (VNum 123) init = Throw MessageRequired.
Proof.
  split.
  - pose proof (createEvent_outcome (js "id-1") (js "2025-01-20T10:30:00.000Z")
                  (VStr (js "tenant_c")) VNull init init_wf) as H.
    destruct (createEvent _ _ _ _ init) as [[e st']|[v| | |]].
    + by destruct H as [[=] _].
    + by destruct H as [-> _].
    + by destruct H as [[=] _].
    + by destruct H as [[=] _].
    + done.
  - pose proof (createEvent_outcome (js "id-1") (js "2025-01-20T10:30:00.000Z")
                  (VStr tenant_a) (VNum 123) init init_wf) as H.
    destruct (createEvent _ _ _ _ init) as [[e st']|[v| | |]].
    + by destruct H as (_ & s & [=] & _).
    + by destruct H as [_ [=]].
    + done.
    + by destruct H as (_ & s & [=] & _).
    + done.
Defined.

(** X3.  [clearTenantEvents] on a supported tenant returns and leaves that
    tenant with no event: its count is 0 and each of its lists is empty,
    whatever was stored and even if the tenant had lost its array; the
    record of the announcements is kept.  On any other id it throws and
    changes nothing. *)
Theorem clearTenantEvents_empties t st :
  (isValidTenant t = true →
   ∃ st', clearTenantEvents t st = Ok st' ∧
          getEventCount t st' = Ok 0%Z ∧
          (∀ limit, getEvents t limit st' = Ok []) ∧
          emitted st' = emitted st) ∧
  (isValidTenant t = false →
   clearTenantEvents t st = Throw (InvalidTenant t) ∧
   step st (OpClearTenantEvents t) = st).
Proof.
  split.
  - intros (tn & -> & Hin)%isValidTenant_iff. unfold clearTenantEvents.
    assert (isValidTenant (VStr tn) = true) as -> by (apply isValidTenant_iff; eauto).
    cbn [negb]. eexists. split; [done|]. split; [|split; [|done]].
    + rewrite (getEventCount_Ok tn []); [done|done|]. cbn [tenantEvents].
      apply lookup_insert_eq.
    + intros limit.
      rewrite (getEvents_Ok tn []); [|done|cbn [tenantEvents]; apply lookup_insert_eq].
      destruct limit as [| |n]; try done.
      destruct (n =? 0)%Z; [done|]. unfold slice0. by rewrite take_nil.
  - intros Hv. cbn [step]. unfold clearTenantEvents. by rewrite Hv.
Qed.

Lemma clearTenantEvents_empties_witness :
  ∃ st', clearTenantEvents (VStr tenant_a) three_events = Ok st' ∧
         getEventCount (VStr tenant_a) st' = Ok 0%Z ∧
         getEventCount (VStr tenant_b) st' = Ok 1%Z.
Proof.
  destruct (proj1 (clearTenantEvents_empties (VStr tenant_a) three_events))
    as (st' & Hc & Hcount & _); [reflexivity|].
  exists st'. split; [exact Hc|]. split; [exact Hcount|].
  vm_compute in Hc. injection Hc as <-. by vm_compute.
Defined.

(** X4.  A [createEvent] that returns has built the event from its
    arguments (the id, the time and the tenant it was given), has put it at
    the head of that tenant's list, has raised the tenant's count by one,
    up to the cap, and has announced exactly this event for this tenant,
    after everything announced before. *)
Theorem createEvent_stores_and_announces i now t m st e st' :
  createEvent i now t m st = Ok (e, st') →
  id e = i ∧ timestamp e = now ∧ tenant_id e = t ∧
  (∃ older, getEvents t LimitOmitted st' = Ok (e :: older)) ∧
  getEventsByTenant t (LimitNum 1) st' = Ok [e] ∧
  (∃ n, getEventCount t st = Ok n ∧
        getEventCount t st' = Ok (Z.min 1000 (n + 1))) ∧
  emitted st' = (t, e) :: emitted st.
Proof.
  intros Hc. apply createEvent_inv in Hc
    as (tn & s & events & -> & -> & Hin & Hl & Hs & Hlen & -> & ->).
  cbn [id timestamp tenant_id emitted]. do 3 (split; [done|]).
  set (e := {| id := i; tenant_id := VStr tn; message := trim s; timestamp := now |}).
  assert (tenantEvents {| tenantEvents :=
                            <[tn := take MAX_EVENTS_PER_TENANT (e :: events)]>
                              (tenantEvents st);
                          emitted := (VStr tn, e) :: emitted st |} !! tn
          = Some (e :: take 999 events)) as Hl'.
  { cbn [tenantEvents]. by rewrite lookup_insert_eq. }
  split; [|split; [|split; [|done]]].
  - rewrite (getEvents_Ok tn _ _ _ Hin Hl'). by eexists.
  - unfold getEventsByTenant. rewrite (getEvents_Ok tn _ _ _ Hin Hl').
    simpl. by rewrite slice0_pos by lia.
  - exists (Z.of_nat (length events)).
    split; [by apply getEventCount_Ok|].
    rewrite (getEventCount_Ok tn _ _ Hin Hl'). f_equal.
    cbn [length]. rewrite length_take. lia.
Qed.

Lemma createEvent_stores_and_announces_witness :
  ∃ e st',
    createEvent (js "id-9") (js "2025-01-20T10:30:00.000Z") (VStr tenant_b)
      (VStr (js " hello ")) three_events = Ok (e, st') ∧
    getEventCount (VStr tenant_b) st' = Ok 2%Z ∧
    emitted st' = (VStr tenant_b, e) :: emitted three_events.
Proof.
  pose (e := {| id := js "id-9"; tenant_id := VStr tenant_b;
                message := js "hello"; timestamp := js "2025-01-20T10:30:00.000Z" |}).
  pose (st' := step three_events
                 (OpCreateEvent (js "id-9") (js "2025-01-20T10:30:00.000Z")
                    (VStr tenant_b) (VStr (js " hello ")))).
  assert (createEvent (js "id-9") (js "2025-01-20T10:30:00.000Z") (VStr tenant_b)
            (VStr (js " hello ")) three_events = Ok (e, st')) as Hc.
  { vm_compute. reflexivity. }
  exists e, st'. split; [exact Hc|].
  destruct (createEvent_stores_and_announces _ _ _ _ _ _ _ Hc)
    as (_ & _ & _ & _ & _ & (n & Hn & Hn') & Hem).
  split; [|exact Hem]. rewrite Hn'. vm_compute in Hn. by injection Hn as <-.
Defined.

Section CreatedEvents.

Lemma init_consistent : events_consistent init.
Proof.
  split.
  - intros tn events e. rewrite init_lookup. case_bool_decide; [|done].
    intros [= <-]. by intros ?%elem_of_nil.
  - intros t e. cbn [emitted init]. by intros ?%elem_of_nil.
Qed.

Lemma step_consistent st o :
  through_event_service o = true → events_consistent st →
  events_consistent (step st o).
Proof.
  intros Ho [Hlog Hem]. destruct o as [t e|i now t m|t]; [done| |]; cbn [step].
  - destruct (createEvent i now t m st) as [[e st']|] eqn:Hc; [|done].
    apply createEvent_inv in Hc
      as (tn & s & events & -> & -> & Hin & Hl & Hs & Hlen & -> & ->).
    split.
    + intros tn' events' e'. cbn [tenantEvents].
      destruct (decide (tn = tn')) as [<-|Hne].
      * rewrite lookup_insert_eq. intros [= <-] [->|He']%elem_of_cons.
        2:{ apply elem_of_take in He' as (k & Hk & _).
            apply list_elem_of_lookup_2 in Hk. by eapply Hlog. }
        split; [done|]. cbn [message]. split; [|apply trim_idemp].
        etrans; [apply trim_length|done].
      * rewrite lookup_insert_ne by done. apply Hlog.
    + intros t e'. cbn [emitted]. intros [[= -> ->]|He]%elem_of_cons; [|by apply Hem].
      split; [apply isValidTenant_iff; eauto|done].
  - unfold clearTenantEvents.
    destruct (isValidTenant t) eqn:Hv; cbn [negb]; [|done].
    apply isValidTenant_iff in Hv as (tn & -> & _). split; [|done].
    intros tn' events' e'. cbn [tenantEvents].
    destruct (decide (tn = tn')) as [<-|Hne].
    * rewrite lookup_insert_eq. intros [= <-]. by intros ?%elem_of_nil.
    * rewrite lookup_insert_ne by done. apply Hlog.
Qed.

End CreatedEvents.

(** X5.  As long as events enter the store through [createEvent] (no direct
    [addEvent]), every event stored under a tenant carries that tenant's
    id, and its message is trimmed and has at most 500 code units; and every
    announcement names a supported tenant and carries an event of that
    tenant. *)
Theorem created_events_belong_to_their_tenant ops :
  Forall (λ o, through_event_service o = true) ops →
  (∀ tn events e, tenantEvents (run ops init) !! tn = Some events → e ∈ events →
                  well_formed_event tn e) ∧
  (∀ t e, (t, e) ∈ emitted (run ops init) →
          isValidTenant t = true ∧ tenant_id e = t).
Proof.
  intros Hops. change (events_consistent (run ops init)).
  unfold run. generalize init_consistent. generalize init.
  induction Hops as [|o ops Ho _ IH]; intros st Hst; simpl; [done|].
  by apply IH, step_consistent.
Qed.

Lemma created_events_belong_to_their_tenant_witness :
  (VStr tenant_b, event_of tenant_b (numbered_request 2)) ∈ emitted three_events ∧
  isValidTenant (VStr tenant_b) = true ∧
  tenant_id (event_of tenant_b (numbered_request 2)) = VStr tenant_b.
Proof.
  assert ((VStr tenant_b, event_of tenant_b (numbered_request 2))
            ∈ emitted three_events) as Hin.
  { vm_compute. constructor. }
  split; [exact Hin|].
  apply (proj2 (created_events_belong_to_their_tenant
                  [create_op tenant_a (numbered_request 0);
                   create_op tenant_a (numbered_request 1);
                   create_op tenant_b (numbered_request 2)]
                  ltac:(repeat (apply List.Forall_cons; [reflexivity|]);
                        apply List.Forall_nil))).
  exact Hin.
Defined.

(** X6.  When a tenant's log is full, [addEvent] puts the new event at the
    head and drops exactly one event, the oldest: the log becomes the new
    event followed by the old log without its last entry, and the count
    stays at 1000. *)
Theorem addEvent_full_log_drops_oldest tn e events st :
  tn ∈ config.supportedTenants →
  tenantEvents st !! tn = Some events →
  length events = 1000%nat →
  ∃ st', addEvent (VStr tn) e st = Ok (true, st') ∧
         tenantEvents st' !! tn = Some (e :: removelast events) ∧
         getEventCount (VStr tn) st' = Ok 1000%Z ∧
         emitted st' = emitted st.
Proof.
  intros Hin Hl Hlen. rewrite (addEvent_Ok tn e events) by done.
  eexists. split; [done|].
  assert (take MAX_EVENTS_PER_TENANT (e :: events) = e :: removelast events) as ->.
  { rewrite removelast_firstn_len, Hlen. done. }
  cbn [tenantEvents emitted]. split; [apply lookup_insert_eq|]. split; [|done].
  erewrite getEventCount_Ok; [|done|cbn [tenantEvents]; apply lookup_insert_eq].
  cbn [length]. rewrite removelast_firstn_len, length_take, Hlen. done.
Qed.

Lemma addEvent_full_log_drops_oldest_witness :
  ∃ st', addEvent (VStr tenant_a) (event_of tenant_a (numbered_request 1)) full_log
           = Ok (true, st') ∧
         getEventCount (VStr tenant_a) st' = Ok 1000%Z.
Proof.
  destruct (addEvent_full_log_drops_oldest tenant_a
              (event_of tenant_a (numbered_request 1))
              (replicate 1000 (event_of tenant_a (numbered_request 0))) full_log)
    as (st' & Ha & _ & Hc & _).
  - apply tenant_a_supported.
  - apply lookup_insert_eq.
  - apply length_replicate.
  - by exists st'.
Defined.

(** X7.  Whatever the limit, the list of a supported tenant is a prefix of
    its log: a limit never reorders or skips.  A negative limit leaves out
    that many events from the old end, and returns nothing once it
    reaches the length of the log. *)
Theorem getEvents_is_prefix_of_log tn events limit st :
  tn ∈ config.supportedTenants →
  tenantEvents st !! tn = Some events →
  ∃ l, getEvents (VStr tn) limit st = Ok l ∧
       l `prefix_of` events ∧
       (∀ n, limit = LimitNum n → (n < 0)%Z →
             l = take (length events - Z.to_nat (- n)) events).
Proof.
  intros Hin Hl. rewrite (getEvents_Ok tn events) by done.
  eexists. split; [done|].
  destruct limit as [| |n]; try (split; [done|by intros ? [=]]).
  destruct (Z.eqb_spec n 0) as [->|Hn]; [split; [done|]; intros ? [= <-]; lia|].
  unfold slice0. split; [apply prefix_take|].
  intros ? [= <-] Hneg. destruct (Z.ltb_spec n 0) as [_|]; [|lia].
  f_equal. lia.
Qed.

Lemma getEvents_is_prefix_of_log_witness :
  getEvents (VStr tenant_a) (LimitNum (-1)) three_events
  = Ok [event_of tenant_a (numbered_request 1)].
Proof.
  destruct (getEvents_is_prefix_of_log tenant_a
              [event_of tenant_a (numbered_request 1);
               event_of tenant_a (numbered_request 0)]
              (LimitNum (-1)) three_events)
    as (l & -> & _ & Hneg).
  - apply tenant_a_supported.
  - vm_compute. reflexivity.
  - f_equal. apply (Hneg (-1)%Z); [reflexivity|lia].
Defined.

(** X8.  The pre-check and the creation agree except on white space: in a
    state where every supported tenant has its array and for a supported
    tenant, [validateEventData] accepts a candidate exactly when
    [createEvent], given the candidate's message, returns and stores a
    message that is not empty. *)
Theorem validateEventData_iff_created_nonempty i now tn eventData st :
  tn ∈ config.supportedTenants → wf st →
  isValid (validateEventData eventData) = true ↔
  ∃ e st', createEvent i now (VStr tn) (get_message eventData) st = Ok (e, st') ∧
           message e ≠ [].
Proof.
  intros Hin Hwf. destruct (Hwf tn Hin) as [events Hl]. split.
  - unfold validateEventData.
    destruct (truthy eventData); cbn [negb]; [|done].
    destruct (get_message eventData) as [| |b|z|s|props];
      cbn [truthy is_string negb orb isValid]; try done.
    + by rewrite orb_true_r.
    + by rewrite orb_true_r.
    + destruct s as [|c s]; [done|]. cbn [negb].
      destruct (Z.ltb_spec config.maxEventMessageLength (Z.of_nat (length (c :: s))))
        as [|Hle]; [done|]. unfold config.maxEventMessageLength in Hle.
      destruct (trim (c :: s)) as [|d u] eqn:Ht; [done|]. intros _.
      rewrite (createEvent_Ok i now tn (c :: s) events); [|done|done|done|lia].
      eexists _, _. split; [done|]. cbn [message]. by rewrite Ht.
  - intros (e & st' & Hc & Hne).
    apply createEvent_inv in Hc
      as (tn' & s & events' & _ & Hm & _ & _ & Hs & Hlen & -> & _).
    cbn [message] in Hne. unfold validateEventData.
    assert (truthy eventData = true) as ->.
    { destruct eventData; try done. }
    rewrite Hm. destruct s as [|c s]; [done|]. cbn [truthy is_string negb orb].
    destruct (Z.ltb_spec config.maxEventMessageLength (Z.of_nat (length (c :: s))))
      as [Hgt|_]; [unfold config.maxEventMessageLength in Hgt; lia|].
    by destruct (trim (c :: s)).
Qed.

Lemma validateEventData_iff_created_nonempty_witness :
  isValid (validateEventData (with_message (js "   "))) = false ∧
  (∃ e st', createEvent (js "id-1") (js "2025-01-20T10:30:00.000Z") (VStr tenant_a)
              (VStr (js " ok ")) init = Ok (e, st') ∧ message e ≠ []).
Proof.
  split.
  - destruct (isValid (validateEventData (with_message (js "   ")))) eqn:Hv; [|done].
    apply (validateEventData_iff_created_nonempty (js "id-1")
             (js "2025-01-20T10:30:00.000Z") tenant_a _ init
             tenant_a_supported init_wf) in Hv as (e & st' & Hc & Hne).
    vm_compute in Hc. injection Hc as <- _. done.
  - apply (validateEventData_iff_created_nonempty (js "id-1")
             (js "2025-01-20T10:30:00.000Z") tenant_a (with_message (js " ok ")) init
             tenant_a_supported init_wf).
    vm_compute. reflexivity.
Defined.

Section EscapeLength.

Lemma escape_char_plain c : needs_escape c = false → escape_char c = [c].
Proof.
  unfold needs_escape, literal_markup, escape_char.
  destruct (c =? AMP)%N; [done|]. destruct (c =? LT)%N; [done|].
  destruct (c =? GT)%N; [done|]. destruct (c =? QUOT)%N; [done|].
  destruct (c =? APOS)%N; [done|]. by destruct (c =? SLASH)%N.
Qed.

Lemma escape_char_length c :
  (1 ≤ length (escape_char c) ≤ 6)%nat ∧
  (needs_escape c = true → (4 ≤ length (escape_char c))%nat).
Proof.
  unfold needs_escape, literal_markup, escape_char.
  destruct (c =? AMP)%N; [simpl; lia|].
  destruct (c =? LT)%N; [simpl; lia|].
  destruct (c =? GT)%N; [simpl; lia|].
  destruct (c =? QUOT)%N; [simpl; lia|].
  destruct (c =? APOS)%N; [simpl; lia|].
  destruct (c =? SLASH)%N; [simpl; lia|].
  simpl. split; [lia|done].
Qed.

Lemma flat_map_escape_length s :
  (length s ≤ length (flat_map escape_char s) ≤ 6 * length s)%nat ∧
  ((∃ c, c ∈ s ∧ needs_escape c = true) →
   (length s < length (flat_map escape_char s))%nat).
Proof.
  induction s as [|c s [IH1 IH2]]; simpl.
  - split; [lia|]. by intros (c & ?%elem_of_nil & _).
  - rewrite length_app. destruct (escape_char_length c) as [Hc1 Hc2].
    split; [lia|]. intros (d & [->|Hd]%elem_of_cons & Hesc).
    + specialize (Hc2 Hesc). lia.
    + assert (length s < length (flat_map escape_char s))%nat by (apply IH2; eauto).
      lia.
Qed.

Lemma flat_map_escape_plain s :
  (∀ c, c ∈ s → needs_escape c = false) → flat_map escape_char s = s.
Proof.
  induction s as [|c s IH]; intros H; simpl; [done|].
  rewrite escape_char_plain by (apply H; left). simpl. f_equal.
  apply IH. intros d Hd. apply H. by right.
Qed.

Lemma flat_map_escape_nil s : flat_map escape_char s = [] ↔ s = [].
Proof.
  split; [|by intros ->]. destruct s as [|c s]; [done|]. simpl.
  destruct (escape_char_length c) as [Hc _].
  intros H%(f_equal length). rewrite length_app in H. simpl in H. lia.
Qed.

End EscapeLength.

(** X9.  [sanitizeMessage] returns a string as it is, only trimmed, exactly
    when the trimmed string holds none of the six code units it replaces.
    Otherwise the result is longer; it never has fewer code units than the
    trimmed input and never more than six times as many. *)
Theorem sanitizeMessage_plain_text s :
  (sanitizeMessage (VStr s) = trim s ↔ ∀ c, c ∈ trim s → needs_escape c = false) ∧
  (length (trim s) ≤ length (sanitizeMessage (VStr s)) ≤ 6 * length (trim s))%nat.
Proof.
  rewrite sanitizeMessage_single_pass.
  destruct (flat_map_escape_length (trim s)) as [Hlen Hlonger]. split; [|done].
  split; [|apply flat_map_escape_plain].
  intros Heq c Hc. destruct (needs_escape c) eqn:Hesc; [|done].
  assert (length (trim s) < length (flat_map escape_char (trim s)))%nat
    by (apply Hlonger; eauto).
  rewrite Heq in *. lia.
Qed.

(** X10.  [sanitizeMessage] returns the empty string exactly for what is not
    a string and for a string of white space only (the empty string
    included): every other input keeps at least one code unit. *)
Theorem sanitizeMessage_empty_iff v :
  sanitizeMessage v = [] ↔
  is_string v = false ∨ ∃ s, v = VStr s ∧ Forall (λ c, is_whitespace c = true) s.
Proof.
  destruct v as [| |b|z|s|props]; try (split; [by left | done]).
  rewrite sanitizeMessage_single_pass, flat_map_escape_nil, trim_nil_iff. split.
  - intros H. right. by exists s.
  - by intros [[=]|(s' & [= <-] & H)].
Qed.

(** * Further properties of the request path *)

Section RequestPath.

Lemma validateTenant_accepted header t :
  validateTenant header = TenantAccepted t →
  t = header ∧ ∃ tn, t = VStr tn ∧ tn ∈ config.supportedTenants.
Proof.
  unfold validateTenant. destruct (truthy header); cbn [negb]; [|done].
  destruct (isValidTenant header) eqn:Hv; cbn [negb]; [|done].
  intros [= <-]. split; [done|]. by apply isValidTenant_iff.
Qed.

Lemma stored_total_bounded st l :
  capped st →
  (0 ≤ stored_total st l ≤ 1000 * Z.of_nat (length l))%Z.
Proof.
  intros Hc. induction l as [|t l IH]; simpl; [lia|].
  assert (0 ≤ stored st t ≤ 1000)%Z.
  { unfold stored. destruct (tenantEvents st !! t) as [events|] eqn:Hl; [|lia].
    specialize (Hc t events Hl). unfold MAX_EVENTS_PER_TENANT in Hc. lia. }
  lia.
Qed.

End RequestPath.



(** X12.  In every state the calls can reach, [getEventStats] returns and
    its total lies between 0 and 1000 times the number of supported
    tenants: the memory the events take is bounded. *)
Theorem stats_total_bounded ops :
  ∃ s, getEventStats (run ops init) = Ok s ∧
       (0 ≤ totalEvents s ≤ 1000 * Z.of_nat (length config.supportedTenants))%Z.
Proof.
  destruct (reachable_inv ops) as [Hwf Hcap].
  unfold getEventStats, getSupportedTenants.
  destruct (stats_loop (run ops init) Hwf config.supportedTenants
              {| totalEvents := 0; tenantStats := ∅ |})
    as (s & -> & _ & Htot & _); [apply supportedTenants_NoDup|done|done|].
  exists s. split; [done|]. cbn [totalEvents] in Htot. rewrite Htot.
  pose proof (stored_total_bounded (run ops init) config.supportedTenants Hcap). lia.
Qed.

(** X13.  On the path of GET /api/events, once [validateTenant] has
    accepted the tenant header, the handler answers with events only for a
    limit between 1 and 100: 50 when the query has no limit or an empty one,
    else the number [parseInt] reads.  The answer is then the first [limit]
    events of the tenant's log (all of them when there are fewer), with
    their number, so it never holds more than 100 events.  Every other
    limit, 0 and text without a leading number included, goes to the error
    handler as the limit error with status 400; the services never throw on
    this path. *)
Theorem events_query_limit header t limitParam events st :
  validateTenant header = TenantAccepted t →
  map_get (tenantEvents st) t = Some events →
  match eventsQuery.getEvents t limitParam st with
  | inr r =>
      ∃ limit, (1 ≤ limit ≤ 100)%Z ∧
        resp_events r = take (Z.to_nat limit) events ∧
        resp_count r = Z.min limit (Z.of_nat (length events)) ∧
        resp_tenant r = t ∧
        match limitParam with
        | Some (c :: s) => parseInt (c :: s) = Some limit
        | _ => limit = 50%Z
        end
  | inl (AppError _ status _) =>
      status = 400%Z ∧
      ∃ s, limitParam = Some s ∧ s ≠ [] ∧
           ∀ n, parseInt s = Some n → (n < 1 ∨ 100 < n)%Z
  | inl (ServiceError _) => False
  end.
Proof.
  intros (_ & tn & -> & Hin)%validateTenant_accepted Hl. cbn [map_get] in Hl.
  assert (∀ limit, (1 ≤ limit)%Z →
            eventsQuery.respond (VStr tn) limit st
            = inr {| resp_events := take (Z.to_nat limit) events;
                     resp_count := Z.min limit (Z.of_nat (length events));
                     resp_tenant := VStr tn |}) as Hresp.
  { intros limit Hlimit. unfold eventsQuery.respond, getEventsByTenant.
    rewrite (getEvents_Ok tn events) by done.
    destruct (Z.eqb_spec limit 0) as [|_]; [lia|].
    rewrite slice0_pos by lia. do 2 f_equal. rewrite length_take. lia. }
  unfold eventsQuery.getEvents.
  destruct limitParam as [[|c s]|]; cbn [truthy].
  - rewrite Hresp by lia. exists 50%Z. by repeat (split; [lia || done|]).
  - destruct (parseInt (c :: s)) as [n|] eqn:Hp.
    + destruct (Z.ltb_spec n 1); cbn [orb].
      { split; [done|]. exists (c :: s). repeat (split; [done|]).
        intros n' Hn'. rewrite Hp in Hn'. injection Hn' as <-. lia. }
      destruct (Z.ltb_spec 100 n).
      { split; [done|]. exists (c :: s). repeat (split; [done|]).
        intros n' Hn'. rewrite Hp in Hn'. injection Hn' as <-. lia. }
      rewrite Hresp by lia. exists n. by repeat (split; [lia || done|]).
    + split; [done|]. exists (c :: s). repeat (split; [done|]).
      intros n' Hn'. by rewrite Hp in Hn'.
  - rewrite Hresp by lia. exists 50%Z. by repeat (split; [lia || done|]).
Qed.

Lemma events_query_limit_witness :
  eventsQuery.getEvents (VStr tenant_a) (Some (js "0")) three_events
    = inl (AppError "Limit must be between 1 and 100" 400 "INVALID_LIMIT") ∧
  eventsQuery.getEvents (VStr tenant_a) (Some (js " 1 event")) three_events
    = inr {| resp_events := [event_of tenant_a (numbered_request 1)];
             resp_count := 1; resp_tenant := VStr tenant_a |}.
Proof.
  pose (events := [event_of tenant_a (numbered_request 1);
                   event_of tenant_a (numbered_request 0)]).
  assert (map_get (tenantEvents three_events) (VStr tenant_a) = Some events) as Hl
    by (vm_compute; reflexivity).
  split.
  - pose proof (events_query_limit (VStr tenant_a) (VStr tenant_a) (Some (js "0"))
                  events three_events eq_refl Hl) as H.
    destruct (eventsQuery.getEvents _ _ three_events) as [[m status code|e]|r] eqn:Hq.
    + vm_compute in Hq. symmetry. exact Hq.
    + destruct H.
    + destruct H as (limit & Hrange & _ & _ & _ & Hp).
      vm_compute in Hp. injection Hp as <-. lia.
  - pose proof (events_query_limit (VStr tenant_a) (VStr tenant_a)
                  (Some (js " 1 event")) events three_events eq_refl Hl) as H.
    destruct (eventsQuery.getEvents _ _ three_events) as [[m status code|e]|r] eqn:Hq.
    + destruct H as (_ & s & [= <-] & _ & Hp).
      specialize (Hp 1%Z ltac:(vm_compute; reflexivity)). lia.
    + destruct H.
    + destruct H as (limit & _ & He & Hc & Ht & Hp).
      vm_compute in Hp. injection Hp as <-.
      destruct r as [re rc rt]. cbn in He, Hc, Ht. by subst.
Defined.

Section ErrorHandler.

(** The text of the tenant error holds the words the handler looks for,
    whatever the id that follows them. *)
Lemma includes_invalid_tenant (shown : string) :
  includes (String.append "Invalid tenant: " shown) "Invalid tenant" = true.
Proof. vm_compute. reflexivity. Qed.

End ErrorHandler.

(** X14.  The error handler answers each error of the two services with
    status 400 and a code of its own: the tenant error, whatever the id in
    its message, with INVALID_TENANT; the length error with
    MESSAGE_TOO_LONG; the message error with MISSING_MESSAGE.  An error that
    carries a status of its own and matches none of these texts, as the
    limit error of GET /api/events does, is answered with that status and
    its message, and with the code INTERNAL_ERROR: its own code is not
    sent. *)
Theorem errorHandler_statuses shown :
  (∀ v, errorHandler <$> thrown shown (ServiceError (InvalidTenant v))
        = Some {| res_status := 400; res_error := "Invalid tenant ID";
                  res_code := "INVALID_TENANT" |}) ∧
  errorHandler <$> thrown shown (ServiceError MessageTooLong)
    = Some {| res_status := 400; res_error := "Message too long";
              res_code := "MESSAGE_TOO_LONG" |} ∧
  errorHandler <$> thrown shown (ServiceError MessageRequired)
    = Some {| res_status := 400; res_error := "Message is required";
              res_code := "MISSING_MESSAGE" |} ∧
  errorHandler <$> thrown shown
      (AppError "Limit must be between 1 and 100" 400 "INVALID_LIMIT")
    = Some {| res_status := 400; res_error := "Limit must be between 1 and 100";
              res_code := "INTERNAL_ERROR" |} ∧
  (∀ message status code,
     status ≠ 0%Z →
     includes message "Invalid tenant" = false →
     includes message "Message exceeds maximum length" = false →
     includes message "Message is required" = false →
     errorHandler <$> thrown shown (AppError message status code)
     = Some {| res_status := status; res_error := message;
               res_code := "INTERNAL_ERROR" |}).
Proof.
  split; [|split; [|split; [|split]]].
  - intros v. cbn [thrown fmap option_fmap option_map]. apply (f_equal Some).
    unfold errorHandler. cbn [err_name err_message].
    rewrite bool_decide_eq_false_2 by done.
    by rewrite includes_invalid_tenant.
  - by vm_compute.
  - by vm_compute.
  - by vm_compute.
  - intros message status code Hs H1 H2 H3.
    cbn [thrown fmap option_fmap option_map]. apply (f_equal Some).
    unfold errorHandler. cbn [err_name err_message err_statusCode].
    rewrite bool_decide_eq_false_2 by done. rewrite H1, H2, H3.
    by destruct (Z.eqb_spec status 0).
Qed.

Lemma errorHandler_statuses_witness :
  errorHandler <$> thrown "tenant_c" (AppError "Too many requests" 429 "RATE_LIMIT")
  = Some {| res_status := 429; res_error := "Too many requests";
            res_code := "INTERNAL_ERROR" |}.
Proof.
  apply (proj2 (proj2 (proj2 (proj2 (errorHandler_statuses "tenant_c"))))).
  - lia.
  - by vm_compute.
  - by vm_compute.
  - by vm_compute.
Defined.

(** * Properties of the registry of connected clients *)

#[local] Set Warnings "-clear-no-such-hyp".

Section Registry.

Implicit Types clients : gmap jsstring (gset jsstring).

Lemma size_zero_empty (ids : gset jsstring) : size ids = 0%nat ↔ ids = ∅.
Proof. rewrite size_empty_iff. by fold_leibniz. Qed.

(** [trackConnection] is one insertion: the old group, or the empty one,
    with the new id. *)
Lemma trackConnection_insert s clients :
  trackConnection s clients
  = <[socket_tenantId s := default ∅ (clients !! socket_tenantId s) ∪ {[socket_id s]}]>
      clients.
Proof.
  unfold trackConnection. cbv zeta.
  destruct (clients !! socket_tenantId s) as [ids|] eqn:Hl; cbn [default].
  - by rewrite Hl.
  - by rewrite lookup_insert_eq, insert_insert_eq.
Qed.

(** [handleDisconnection] on a tenant with a group: the group without the
    id, or no group when that was its last id. *)
Lemma handleDisconnection_lookup s clients t :
  handleDisconnection s clients !! t =
    if decide (t = socket_tenantId s)
    then match clients !! t with
         | Some ids => if decide (ids ∖ {[socket_id s]} = ∅) then None
                       else Some (ids ∖ {[socket_id s]})
         | None => None
         end
    else clients !! t.
Proof.
  unfold handleDisconnection. cbv zeta.
  destruct (decide (t = socket_tenantId s)) as [->|Hne].
  - destruct (clients !! socket_tenantId s) as [ids|] eqn:Hl; [|by rewrite Hl].
    destruct (Nat.eqb_spec (size (ids ∖ {[socket_id s]})) 0) as [Hz|Hnz].
    + rewrite lookup_delete_eq. apply size_zero_empty in Hz.
      by rewrite decide_True.
    + rewrite lookup_insert_eq. rewrite decide_False; [done|].
      by rewrite <- size_zero_empty.
  - destruct (clients !! socket_tenantId s) as [ids|] eqn:Hl; [|done].
    destruct (size (ids ∖ {[socket_id s]}) =? 0)%nat.
    + by rewrite lookup_delete_ne, lookup_insert_ne.
    + by rewrite lookup_insert_ne.
Qed.

Lemma socket_step_no_empty_group clients o :
  no_empty_group clients → no_empty_group (socket_step clients o).
Proof.
  intros Hinv t ids. destruct o as [s|s]; cbn [socket_step].
  - rewrite trackConnection_insert.
    destruct (decide (socket_tenantId s = t)) as [<-|Hne].
    + rewrite lookup_insert_eq. intros [= <-]. set_solver.
    + rewrite lookup_insert_ne by done. apply Hinv.
  - rewrite handleDisconnection_lookup.
    destruct (decide (t = socket_tenantId s)) as [->|Hne]; [|apply Hinv].
    destruct (clients !! socket_tenantId s) as [ids0|]; [|done].
    destruct (decide (ids0 ∖ {[socket_id s]} = ∅)); [done|]. by intros [= <-].
Qed.

End Registry.

(** X15.  However sockets connect and disconnect, the registry keeps no
    tenant with an empty group: a tenant is in the map exactly when its
    count of connected clients is not 0. *)
Theorem registry_keeps_no_empty_group ops :
  no_empty_group (socket_run ops ∅) ∧
  ∀ t, is_Some (socket_run ops ∅ !! t) ↔
       getConnectedClientCount t (socket_run ops ∅) ≠ 0%Z.
Proof.
  assert (no_empty_group (socket_run ops ∅)) as Hinv.
  { unfold socket_run.
    assert (no_empty_group (∅ : gmap jsstring (gset jsstring))) as H0
      by (by intros t ids; rewrite lookup_empty).
    revert H0. generalize (∅ : gmap jsstring (gset jsstring)).
    induction ops as [|o ops IH]; intros clients Hc; simpl; [done|].
    by apply IH, socket_step_no_empty_group. }
  split; [done|]. intros t. unfold getConnectedClientCount.
  destruct (socket_run ops ∅ !! t) as [ids|] eqn:Hl.
  - split; [|by eexists]. intros _. specialize (Hinv t ids Hl).
    rewrite <- size_zero_empty in Hinv. lia.
  - split; [by intros [? [=]]|done].
Qed.

(** X16.  Connecting a socket whose id its tenant's group does not hold and
    then disconnecting it puts the registry back exactly as it was,
    provided the registry held no empty group (as after any connections and
    disconnections). *)
Theorem connect_disconnect_restores s clients :
  no_empty_group clients →
  socket_id s ∉ default ∅ (clients !! socket_tenantId s) →
  handleDisconnection s (trackConnection s clients) = clients.
Proof.
  intros Hinv Hfresh. apply map_eq. intros t.
  rewrite handleDisconnection_lookup, trackConnection_insert.
  destruct (decide (t = socket_tenantId s)) as [->|Hne];
    [|by rewrite lookup_insert_ne].
  rewrite lookup_insert_eq.
  assert ((default ∅ (clients !! socket_tenantId s) ∪ {[socket_id s]})
            ∖ {[socket_id s]} = default ∅ (clients !! socket_tenantId s)) as ->
    by set_solver.
  destruct (clients !! socket_tenantId s) as [ids|] eqn:Hl; cbn [default].
  - rewrite decide_False; [done|]. by apply (Hinv _ _ Hl).
  - by rewrite decide_True.
Qed.

Lemma connect_disconnect_restores_witness :
  handleDisconnection (mkSocket (js "s2") tenant_a)
    (trackConnection (mkSocket (js "s2") tenant_a)
       (trackConnection (mkSocket (js "s1") tenant_a) ∅))
  = trackConnection (mkSocket (js "s1") tenant_a) ∅.
Proof.
  apply connect_disconnect_restores.
  - apply (socket_step_no_empty_group ∅ (Connect (mkSocket (js "s1") tenant_a))).
    intros t ids. by rewrite lookup_empty.
  - rewrite trackConnection_insert. cbn [socket_tenantId socket_id].
    rewrite lookup_insert_eq, lookup_empty.
    change (js "s2" ∉ (∅ ∪ {[js "s1"]} : gset jsstring)).
    intros [[]%elem_of_empty|Heq%elem_of_singleton]%elem_of_union.
    by vm_compute in Heq.
Defined.



(** X18.  A connection raises its tenant's count by one when the socket's
    id is new to the group and leaves it when the id is already there; a
    disconnection lowers it by one when the id is in the group and leaves it
    otherwise, so disconnecting twice is disconnecting once.  Neither
    changes the count of any other tenant. *)
Theorem connection_counts (s : socket) (clients : gmap jsstring (gset jsstring)) :
  let t := socket_tenantId s in
  let ids := default ∅ (clients !! t) in
  getConnectedClientCount t (trackConnection s clients)
    = (if decide (socket_id s ∈ ids)
       then getConnectedClientCount t clients
       else getConnectedClientCount t clients + 1)%Z ∧
  getConnectedClientCount t (handleDisconnection s clients)
    = (if decide (socket_id s ∈ ids)
       then getConnectedClientCount t clients - 1
       else getConnectedClientCount t clients)%Z ∧
  handleDisconnection s (handleDisconnection s clients) = handleDisconnection s clients ∧
  (∀ t', t' ≠ t →
         getConnectedClientCount t' (trackConnection s clients)
           = getConnectedClientCount t' clients ∧
         getConnectedClientCount t' (handleDisconnection s clients)
           = getConnectedClientCount t' clients).
Proof.
  intros t ids. subst t ids. unfold getConnectedClientCount.
  split; [|split; [|split]].
  - rewrite trackConnection_insert, lookup_insert_eq.
    destruct (clients !! socket_tenantId s) as [ids|] eqn:Hl; cbn [from_option Datatypes.id].
    + destruct (decide (socket_id s ∈ ids)) as [Hin|Hnin].
      * by assert (ids ∪ {[socket_id s]} = ids) as -> by set_solver.
      * rewrite size_union by set_solver. rewrite size_singleton. lia.
    + rewrite decide_False by set_solver.
      rewrite size_union by set_solver. by rewrite size_empty, size_singleton.
  - rewrite handleDisconnection_lookup, decide_True by done.
    destruct (clients !! socket_tenantId s) as [ids|] eqn:Hl; cbn [from_option Datatypes.id].
    + destruct (decide (ids ∖ {[socket_id s]} = ∅)) as [He|Hne].
      * destruct (decide (socket_id s ∈ ids)) as [Hin|Hnin].
        -- assert (size (ids ∖ {[socket_id s]}) = size ids - 1)%nat as Hsz.
           { rewrite size_difference by set_solver. by rewrite size_singleton. }
           rewrite He, size_empty in Hsz.
           assert (size ids ≠ 0)%nat; [|lia].
           rewrite size_zero_empty. intros ->. set_solver.
        -- assert (ids ∖ {[socket_id s]} = ids) as Heq by set_solver.
           rewrite Heq in He. by rewrite He, size_empty.
      * destruct (decide (socket_id s ∈ ids)) as [Hin|Hnin].
        -- rewrite size_difference by set_solver. rewrite size_singleton.
           assert (size ids ≠ 0)%nat; [|lia].
           rewrite size_zero_empty. intros ->. set_solver.
        -- by assert (ids ∖ {[socket_id s]} = ids) as -> by set_solver.
    + by rewrite decide_False by set_solver.
  - apply map_eq. intros t'. rewrite !handleDisconnection_lookup.
    destruct (decide (t' = socket_tenantId s)) as [->|Hne]; [|done].
    destruct (clients !! socket_tenantId s) as [ids|]; [|done].
    destruct (decide (ids ∖ {[socket_id s]} = ∅)) as [He|Hne]; [done|].
    assert (ids ∖ {[socket_id s]} ∖ {[socket_id s]} = ids ∖ {[socket_id s]}) as ->
      by set_solver.
    by rewrite decide_False.
  - intros t' Hne. split.
    + by rewrite trackConnection_insert, lookup_insert_ne.
    + by rewrite handleDisconnection_lookup, decide_False.
Qed.

(** X19.  A new socket is first told that the connection is established,
    for its own tenant.  It is then sent recent events only when its tenant
    is supported and has at least one event: the 10 newest of that tenant's
    log, or all of them when there are fewer, with their number.  A failure
    of the lookup is caught, and nothing more is sent. *)
Theorem handleConnection_messages now (s : socket) clients st :
  let t := socket_tenantId s in
  snd (handleConnection now s clients st)
  = ConnectionEstablished t now ::
    (if isValidTenant (VStr t)
     then match tenantEvents st !! t with
          | Some (e :: events) =>
              [InitialEvents (take 10 (e :: events))
                 (Z.min 10 (Z.of_nat (length (e :: events))))]
          | _ => []
          end
     else []).
Proof.
  intros t. subst t. cbn [handleConnection snd]. f_equal.
  unfold initialEvents, getEvents.
  destruct (isValidTenant (VStr (socket_tenantId s))); cbn [negb map_get]; [|done].
  destruct (tenantEvents st !! socket_tenantId s) as [[|e events]|]; try done.
  cbn [negb Z.eqb]. rewrite slice0_pos by lia.
  change (Z.to_nat 10) with 10%nat. cbn [take length Nat.ltb Nat.leb].
  do 2 f_equal. rewrite length_take. lia.
Qed.

(** * The tenant check in front of the services *)

(** X20.  The tenant middleware reports a missing tenant for an absent or
    empty value, an invalid tenant for any other value outside the
    catalog, and hands on a value of the catalog unchanged.  For a tenant it
    has accepted, in a state where every supported tenant has its array, no
    call of the tenant service is refused: the list, the count, the clearing
    and the insertion all return. *)
Theorem accepted_tenant_is_served header st :
  wf st →
  match validateTenant header with
  | MissingTenant => truthy header = false
  | InvalidTenantId => truthy header = true ∧ isValidTenant header = false
  | TenantAccepted t =>
      t = header ∧
      (∃ tn, t = VStr tn ∧ tn ∈ config.supportedTenants) ∧
      (∀ limit, ∃ l, getEventsByTenant t limit st = Ok l) ∧
      (∃ n, getEventCount t st = Ok n) ∧
      (∃ st', clearTenantEvents t st = Ok st') ∧
      (∀ e, ∃ st', addEvent t e st = Ok (true, st'))
  end.
Proof.
  intros Hwf. destruct (validateTenant header) as [| |t] eqn:Hv.
  - unfold validateTenant in Hv. destruct (truthy header); [|done].
    cbn [negb] in Hv. by destruct (isValidTenant header).
  - unfold validateTenant in Hv. destruct (truthy header); [|done].
    cbn [negb] in Hv. by destruct (isValidTenant header).
  - apply validateTenant_accepted in Hv as (-> & tn & -> & Hin).
    destruct (Hwf tn Hin) as [events Hl].
    split; [done|]. split; [eauto|]. split; [|split; [|split]].
    + intros limit. unfold getEventsByTenant.
      rewrite (getEvents_Ok tn events) by done. eauto.
    + rewrite (getEventCount_Ok tn events) by done. eauto.
    + unfold clearTenantEvents.
      assert (isValidTenant (VStr tn) = true) as ->
        by (apply isValidTenant_iff; eauto).
      cbn [negb]. eauto.
    + intros e. rewrite (addEvent_Ok tn e events) by done. eauto.
Qed.

Lemma accepted_tenant_is_served_witness :
  validateTenant (VStr tenant_b) = TenantAccepted (VStr tenant_b) ∧
  validateTenant (VStr (js "tenant_c")) = InvalidTenantId ∧
  ∃ n, getEventCount (VStr tenant_b) three_events = Ok n.
Proof.
  split; [reflexivity|]. split; [reflexivity|].
  assert (wf three_events) as Hwf.
  { intros t Ht. apply list_elem_of_In in Ht. simpl in Ht.
    destruct Ht as [<-|[<-|[]]]; vm_compute; by eexists. }
  pose proof (accepted_tenant_is_served (VStr tenant_b) three_events Hwf) as H.
  change (validateTenant (VStr tenant_b)) with (TenantAccepted (VStr tenant_b)) in H.
  by destruct H as (_ & _ & _ & Hn & _).
Defined.

Lemma connection_counts_witness :
  getConnectedClientCount tenant_b
    (trackConnection (mkSocket (js "s1") tenant_a) ∅) = 0%Z.
Proof.
  destruct (connection_counts (mkSocket (js "s1") tenant_a) ∅) as (_ & _ & _ & Hother).
  destruct (Hother tenant_b) as [-> _]; [by vm_compute|]. reflexivity.
Defined.
